(** * SkPy utilities ([skpy/util.py]): a shallow embedding and its properties

    The module [SkypeUtils] of SkPy is a collection of static helpers:
    [noPrefix], the class decorators [initAttrs] and [convertIds], the
    memoizing decorator [cacheResult] and the generator [exhaust].  Each of
    them is transcribed below as a function over a small universe of Python
    values, with exceptions as an error type and mutable state (instance
    dictionaries, the cache, the page cursor of a fetch function) passed
    explicitly. *)

From Stdlib Require Import ZArith Ascii String DecimalString.
From stdpp Require Import gmap strings list sorting countable.

Local Open Scope string_scope.
#[local] Set Warnings "-clear-no-such-hyp".

(** ** Python values *)

Module Py.

(** The values that flow through the helpers: [None], integers, text strings,
    tuples and lists.  Among these, the hashable values are exactly the ones
    built without a list, and Python's [==] on hashable values coincides with
    structural equality, which is what dictionary lookup uses below. *)
#[warnings="-register-all"]
Inductive pyval : Type :=
  | VNone
  | VInt (z : Z)
  | VStr (s : string)
  | VTuple (l : list pyval)
  | VList (l : list pyval).

(** The exceptions raised by the code under study.  [TypeError] carries its
    message, [KeyError] the missing key, [AttributeError] the attribute name. *)
Inductive exn : Type :=
  | TypeError (msg : string)
  | IndexError
  | KeyError (key : pyval)
  | AttributeError (name : string).

(** A computation that either raises or returns. *)
Inductive result (A : Type) : Type :=
  | Raise (e : exn)
  | Return (a : A).
Arguments Raise {A} e.
Arguments Return {A} a.

Section pyval_nested_ind.
Variable P : pyval → Prop.
Hypothesis HNone : P VNone.
Hypothesis HInt : ∀ z, P (VInt z).
Hypothesis HStr : ∀ s, P (VStr s).
Hypothesis HTuple : ∀ l, Forall P l → P (VTuple l).
Hypothesis HList : ∀ l, Forall P l → P (VList l).

Fixpoint pyval_nested_ind (v : pyval) : P v :=
  let fix all (l : list pyval) : Forall P l :=
    match l with
    | [] => Forall_nil P
    | x :: l' => Forall_cons P x l' (pyval_nested_ind x) (all l')
    end in
  match v with
  | VNone => HNone
  | VInt z => HInt z
  | VStr s => HStr s
  | VTuple l => HTuple l (all l)
  | VList l => HList l (all l)
  end.
End pyval_nested_ind.

(** Values are countable, so that tuples of them can key a [gmap]. *)
Fixpoint encode_val (v : pyval) : gen_tree (Z + string) :=
  match v with
  | VNone => GenNode 0 []
  | VInt z => GenLeaf (inl z)
  | VStr s => GenLeaf (inr s)
  | VTuple l => GenNode 1 (encode_val <$> l)
  | VList l => GenNode 2 (encode_val <$> l)
  end.

Fixpoint decode_val (t : gen_tree (Z + string)) : pyval :=
  match t with
  | GenLeaf (inl z) => VInt z
  | GenLeaf (inr s) => VStr s
  | GenNode 1 ts => VTuple (decode_val <$> ts)
  | GenNode 2 ts => VList (decode_val <$> ts)
  | GenNode _ _ => VNone
  end.

Lemma decode_encode_val v : decode_val (encode_val v) = v.
Proof.
  induction v as [| | |l IH|l IH] using pyval_nested_ind; simpl; try done.
  - f_equal. induction IH as [|x l Hx _ IHl]; csimpl; [done|]. by rewrite Hx, IHl.
  - f_equal. induction IH as [|x l Hx _ IHl]; csimpl; [done|]. by rewrite Hx, IHl.
Qed.

#[global] Instance encode_val_inj : Inj (=) (=) encode_val.
Proof.
  intros x y Hxy. rewrite <- (decode_encode_val x), <- (decode_encode_val y).
  by rewrite Hxy.
Qed.

#[global] Instance pyval_eq_dec : EqDecision pyval.
Proof.
  intros x y. destruct (decide (encode_val x = encode_val y)) as [H|H].
  - left. by apply (inj encode_val).
  - right. intros ->. by apply H.
Defined.

#[global] Instance pyval_countable : Countable pyval :=
  inj_countable' encode_val decode_val decode_encode_val.

(** [bool(v)]: the empty containers, the empty string, zero and [None] are
    false, everything else is true. *)
Definition truthy (v : pyval) : bool :=
  match v with
  | VNone => false
  | VInt z => negb (Z.eqb z 0)
  | VStr s => negb (String.eqb s "")
  | VTuple l | VList l => match l with [] => false | _ => true end
  end.

(** [isinstance(v, Hashable)]: the type of [v] defines [__hash__].  Tuples
    pass whatever they contain. *)
Definition isinstance_Hashable (v : pyval) : bool :=
  match v with
  | VList _ => false
  | _ => true
  end.

(** [hash(v)] succeeds: a tuple hashes its elements. *)
Fixpoint hashable (v : pyval) : bool :=
  match v with
  | VList _ => false
  | VTuple l => forallb hashable l
  | _ => true
  end.

(** [iter(v)] drained into a list; integers and [None] are not iterable. *)
Definition chars (s : string) : list pyval :=
  (λ c, VStr (String c "")) <$> list_ascii_of_string s.

Definition type_name (v : pyval) : string :=
  match v with
  | VNone => "NoneType"
  | VInt _ => "int"
  | VStr _ => "str"
  | VTuple _ => "tuple"
  | VList _ => "list"
  end.

Definition py_iter (v : pyval) : result (list pyval) :=
  match v with
  | VTuple l | VList l => Return l
  | VStr s => Return (chars s)
  | _ => Raise (TypeError ("'" ++ type_name v ++ "' object is not iterable"))
  end.

End Py.
Import Py.

(** ** [repr] and [str] of values (Python 3 conventions, ASCII text) *)

Module Repr.

Definition dquote : ascii := ascii_of_nat 34.
Definition squote : ascii := "'"%char.
Definition backslash : ascii := "\"%char.

Fixpoint has_char (c : ascii) (s : string) : bool :=
  match s with
  | EmptyString => false
  | String d s' => if Ascii.eqb d c then true else has_char c s'
  end.

Definition hex_digit (n : nat) : ascii :=
  match String.get n "0123456789abcdef" with
  | Some c => c
  | None => "0"%char
  end.

(** One character of a string literal delimited by [q]. *)
Definition escape_char (q c : ascii) : string :=
  let n := nat_of_ascii c in
  if Ascii.eqb c backslash then String backslash (String backslash "")
  else if Ascii.eqb c q then String backslash (String q "")
  else if Nat.eqb n 9 then String backslash "t"
  else if Nat.eqb n 10 then String backslash "n"
  else if Nat.eqb n 13 then String backslash "r"
  else if Nat.ltb n 32 || Nat.eqb n 127 then
    String backslash (String "x" (String (hex_digit (n / 16)) (String (hex_digit (n mod 16)) "")))
  else String c "".

Fixpoint escape (q : ascii) (s : string) : string :=
  match s with
  | EmptyString => EmptyString
  | String c s' => escape_char q c ++ escape q s'
  end.

(** [repr] of a string: single quotes, unless the text has a single quote
    and no double quote. *)
Definition repr_str (s : string) : string :=
  let q := if has_char squote s && negb (has_char dquote s) then dquote else squote in
  String q (escape q s ++ String q "").

Fixpoint py_repr (v : pyval) : string :=
  match v with
  | VNone => "None"
  | VInt z => NilZero.string_of_int (Z.to_int z)
  | VStr s => repr_str s
  | VTuple l =>
      match l with
      | [] => "()"
      | [x] => "(" ++ py_repr x ++ ",)"
      | _ => "(" ++ String.concat ", " (map py_repr l) ++ ")"
      end
  | VList l => "[" ++ String.concat ", " (map py_repr l) ++ "]"
  end.

(** [str(d)] of a dictionary with string keys, given as its items in
    iteration order. *)
Definition str_dict (d : list (string * pyval)) : string :=
  "{" ++ String.concat ", " (map (λ kv, repr_str kv.1 ++ ": " ++ py_repr kv.2) d) ++ "}".

End Repr.

(** ** Identifier extraction: [noPrefix] *)

Module IdentifierExtraction.
Import Repr.

(** [s.split(sep, maxsplit)] for a one-character separator. *)
Fixpoint py_split (sep : ascii) (s : string) (maxsplit : nat) : list string :=
  match s with
  | EmptyString => [EmptyString]
  | String c s' =>
      match maxsplit with
      | 0 => [s]
      | S n =>
          if Ascii.eqb c sep then EmptyString :: py_split sep s' n
          else match py_split sep s' maxsplit with
               | h :: t => String c h :: t
               | [] => [String c EmptyString]
               end
      end
  end.

(** [return s if s is None else s.split(":", 1)[1]] *)
Definition noPrefix (s : pyval) : result pyval :=
  match s with
  | VNone => Return VNone
  | VStr str =>
      match py_split ":" str 1 !! 1%nat with
      | Some r => Return (VStr r)
      | None => Raise IndexError
      end
  | _ => Raise (AttributeError "split")
  end.

Example noPrefix_alice : noPrefix (VStr "8:alice") = Return (VStr "alice").
Proof. reflexivity. Qed.

Example noPrefix_thread :
  noPrefix (VStr "19:abc@thread.skype:x") = Return (VStr "abc@thread.skype:x").
Proof. reflexivity. Qed.

Example noPrefix_bare : noPrefix (VStr "alice") = Raise IndexError.
Proof. reflexivity. Qed.

Lemma py_split_no_sep sep s n : has_char sep s = false → py_split sep s n = [s].
Proof.
  revert n. induction s as [|c s IH]; intros n Hs; [done|].
  simpl in Hs. destruct (Ascii.eqb c sep) eqn:Hc; [done|].
  destruct n as [|n]; simpl; [done|]. by rewrite Hc, (IH (S n) Hs).
Qed.

Lemma py_split_first sep a b :
  has_char sep a = false →
  py_split sep (a ++ String sep b) 1 = [a; b].
Proof.
  induction a as [|c a IH]; intros Ha; simpl.
  - rewrite Ascii.eqb_refl. by destruct b.
  - simpl in Ha. destruct (Ascii.eqb c sep) eqn:Hc; [done|]. by rewrite (IH Ha).
Qed.

Lemma has_char_split sep s :
  has_char sep s = true →
  ∃ a b, s = a ++ String sep b ∧ has_char sep a = false.
Proof.
  induction s as [|c s IH]; simpl; [done|].
  destruct (Ascii.eqb c sep) eqn:Hc.
  - apply Ascii.eqb_eq in Hc as ->. intros _. by exists EmptyString, s.
  - intros (a & b & -> & Ha)%IH. exists (String c a), b. simpl. by rewrite Hc.
Qed.

(** C10: on a string without a colon [noPrefix] raises [IndexError]; [None]
    passes through; a string with a colon yields what follows the first one;
    a string on which [noPrefix] returns has a colon. *)
Theorem noPrefix_colon (s : string) :
  (has_char ":" s = false → noPrefix (VStr s) = Raise IndexError) ∧
  noPrefix VNone = Return VNone ∧
  (∀ a b, has_char ":" a = false → s = a ++ String ":" b →
     noPrefix (VStr s) = Return (VStr b)) ∧
  (∀ r, noPrefix (VStr s) = Return r → has_char ":" s = true).
Proof.
  split_and!.
  - intros Hs. unfold noPrefix. by rewrite (py_split_no_sep _ _ _ Hs).
  - done.
  - intros a b Ha ->. unfold noPrefix. by rewrite (py_split_first _ _ _ Ha).
  - intros r. destruct (has_char ":" s) eqn:Hs; [done|].
    unfold noPrefix. by rewrite (py_split_no_sep _ _ _ Hs).
Qed.

Lemma noPrefix_colon_witness :
  noPrefix (VStr "alice") = Raise IndexError ∧
  noPrefix (VStr "8:alice") = Return (VStr "alice").
Proof.
  split.
  - apply (proj1 (noPrefix_colon "alice")). reflexivity.
  - apply (proj1 (proj2 (proj2 (noPrefix_colon "8:alice"))) "8" "alice"); reflexivity.
Defined.

End IdentifierExtraction.

(** ** The attribute schema constructor: [initAttrs] *)

Module Schema.

(** What [initAttrs] reads from the decorated class: the ordered attribute
    names [cls.attrs] and the mapping [cls.defaults]. *)
Record pyclass : Type := {
  attrs : list string;
  defaults : gmap string pyval;
}.

(** What the generated initializer does to [self], in order. *)
Inductive event : Type :=
  | BaseInit (skype raw : pyval)
  | SetAttr (k : string) (v : pyval).

(** An instance under construction: its attribute dictionary, and the log of
    the initializer's effects on it. *)
Record instance : Type := {
  fields : gmap string pyval;
  trace : list event;
}.

Definition new_instance : instance := {| fields := ∅; trace := [] |}.

(** Statements acting on [self] that may raise. *)
Definition M (A : Type) : Type := instance → result A * instance.

Definition ret {A} (a : A) : M A := λ self, (Return a, self).
Definition raise {A} (e : exn) : M A := λ self, (Raise e, self).
Definition lift {A} (r : result A) : M A := λ self, (r, self).
Definition bind {A B} (m : M A) (k : A → M B) : M B :=
  λ self, match m self with
          | (Return a, self') => k a self'
          | (Raise e, self') => (Raise e, self')
          end.

Notation "x <~ m ;; k" := (bind m (λ x, k))
  (at level 100, m at next level, right associativity).
Notation "m ;;; k" := (bind m (λ _, k))
  (at level 100, right associativity).

(** [setattr(self, k, v)] on a plain instance attribute. *)
Definition setattr (k : string) (v : pyval) : M unit :=
  λ self, (Return tt, {| fields := <[k := v]> (fields self);
                         trace := trace self ++ [SetAttr k v] |}).

Section initAttrs.
(** The initializer of the supertype, [super(cls, self).__init__], as its
    effect on the attribute dictionary. *)
Variable base_init : pyval → pyval → gmap string pyval → gmap string pyval.
Variable cls : pyclass.

Definition super_init (skype raw : pyval) : M unit :=
  λ self, (Return tt, {| fields := base_init skype raw (fields self);
                         trace := trace self ++ [BaseInit skype raw] |}).

(** [for i in range(len(args)): kwargs[cls.attrs[i]] = args[i]], from
    index [i] on. *)
Fixpoint merge_args (i : nat) (args : list pyval) (kwargs : gmap string pyval)
    : result (gmap string pyval) :=
  match args with
  | [] => Return kwargs
  | a :: args' =>
      match attrs cls !! i with
      | Some k => merge_args (S i) args' (<[k := a]> kwargs)
      | None => Raise IndexError
      end
  end.

(** [set(kwargs) - set(cls.attrs)] *)
Definition unknown_names (kwargs : gmap string pyval) : gset string :=
  dom kwargs ∖ list_to_set (attrs cls).

Definition quoted (k : string) : string := "'" ++ k ++ "'".

(** The text after ["__init__() got "], for the sorted unknown names. *)
Definition unknown_text (names : list string) : string :=
  (if decide (length names = 1) then "an unexpected keyword argument"
   else "unexpected keyword arguments")
  ++ " " ++ String.concat ", " (quoted <$> names).

Definition unknown_error (unknown : gset string) : exn :=
  TypeError ("__init__() got "
             ++ unknown_text (merge_sort String.le (elements unknown))).

(** [kwargs.get(k, cls.defaults.get(k))] *)
Definition attr_value (kwargs : gmap string pyval) (k : string) : pyval :=
  match kwargs !! k with
  | Some v => v
  | None => default VNone (defaults cls !! k)
  end.

(** [for k in cls.attrs: setattr(self, k, ...)] *)
Fixpoint set_attrs (ks : list string) (kwargs : gmap string pyval) : M unit :=
  match ks with
  | [] => ret tt
  | k :: ks' => setattr k (attr_value kwargs k) ;;; set_attrs ks' kwargs
  end.

(** The body of the generated
    [__init__(self, skype=None, raw=None, *args, **kwargs)], run on its
    parameters as a call has bound them. *)
Definition __init__ (skype raw : pyval) (args : list pyval)
    (kwargs : gmap string pyval) : M unit :=
  super_init skype raw ;;;
  merged <~ lift (merge_args 0 args kwargs) ;;
  let unknown := unknown_names merged in
  if decide (unknown = ∅) then set_attrs (attrs cls) merged
  else raise (unknown_error unknown).

(** The named parameters of [__init__], which a call binds ahead of
    [*args] and [**kwargs]. *)
Definition params : list string := ["self"; "skype"; "raw"].

(** The parameters that the positional arguments of a call fill: [self],
    which the instantiation passes, then [skype] and [raw] as far as the
    call has positional arguments. *)
Definition filled (pos : list pyval) : list string :=
  take (S (length pos)) params.

(** The keyword arguments of a call, bound in the order they are passed
    (a call never passes a name twice): a keyword that names a parameter
    already filled by position raises, with the text of Python 3 up to 3.9,
    the versions on which the module imports; the others are collected by
    name. *)
Fixpoint bind_keywords (taken : list string) (kws : list (string * pyval))
    : result (gmap string pyval) :=
  match kws with
  | [] => Return ∅
  | (k, v) :: rest =>
      if decide (k ∈ taken) then
        Raise (TypeError ("__init__() got multiple values for argument "
                          ++ quoted k))
      else
        match bind_keywords taken rest with
        | Raise e => Raise e
        | Return m => Return (<[k := v]> m)
        end
  end.

(** The value of the parameter [k] at position [i], whose default is
    [None]. *)
Definition param (pos : list pyval) (named : gmap string pyval)
    (i : nat) (k : string) : pyval :=
  match pos !! i with
  | Some v => v
  | None => default VNone (named !! k)
  end.

(** The parameters [(skype, raw, args, kwargs)] of a call with the
    positional arguments [pos] after [self] and the keywords [kws]. *)
Definition bind_call (pos : list pyval) (kws : list (string * pyval))
    : result (pyval * pyval * list pyval * gmap string pyval) :=
  match bind_keywords (filled pos) kws with
  | Raise e => Raise e
  | Return named =>
      Return (param pos named 0 "skype", param pos named 1 "raw",
              drop 2 pos, delete "skype" (delete "raw" named))
  end.

(** The class called with the positional arguments [pos] and the keywords
    [kws], on the new instance [self]: the arguments are bound, then the
    body runs; a call that does not bind raises before
    the body and leaves the instance as it was created. *)
Definition construct (pos : list pyval) (kws : list (string * pyval)) : M unit :=
  λ self,
    match bind_call pos kws with
    | Raise e => (Raise e, self)
    | Return (skype, raw, args, kwargs) => __init__ skype raw args kwargs self
    end.
End initAttrs.

(** No attribute is set once the base initializer has run: the order the
    trace would have if attributes were set before deferring to the base. *)
Fixpoint no_setattr (t : list event) : bool :=
  match t with
  | [] => true
  | SetAttr _ _ :: _ => false
  | BaseInit _ _ :: t' => no_setattr t'
  end.

Fixpoint sets_before_base (t : list event) : bool :=
  match t with
  | [] => true
  | BaseInit _ _ :: t' => no_setattr t'
  | SetAttr _ _ :: t' => sets_before_base t'
  end.

(** Modelled from the spec: the base-context initializer of the supertype,
    which lives outside [util.py]; it accepts the (session, raw-payload) pair
    and is taken here to store the pair on the instance. *)
Definition SkypeObj_init (skype raw : pyval) (d : gmap string pyval) : gmap string pyval :=
  <["raw" := raw]> (<["skype" := skype]> d).

(** *** Properties of the generated initializer *)

Section initAttrs_facts.
Variable base_init : pyval → pyval → gmap string pyval → gmap string pyval.
Variable cls : pyclass.

Local Open Scope nat_scope.
Local Open Scope list_scope.

#[local] Abbreviation merge_args := (merge_args cls).
#[local] Abbreviation __init__ := (__init__ base_init cls).
#[local] Abbreviation construct := (construct base_init cls).

(** The instance as the base initializer leaves it. *)
Definition after_base (skype raw : pyval) (self : instance) : instance :=
  {| fields := base_init skype raw (fields self);
     trace := trace self ++ [BaseInit skype raw] |}.

Lemma init_unfold skype raw args kwargs self :
  __init__ skype raw args kwargs self =
    match merge_args 0 args kwargs with
    | Raise e => (Raise e, after_base skype raw self)
    | Return merged =>
        if decide (unknown_names cls merged = ∅)
        then set_attrs cls (attrs cls) merged (after_base skype raw self)
        else (Raise (unknown_error (unknown_names cls merged)),
              after_base skype raw self)
    end.
Proof.
  unfold Schema.__init__, bind, super_init, lift, raise, after_base; simpl.
  destruct (merge_args 0 args kwargs); [done|]. by case_decide.
Qed.

Lemma attrs_later_ne i j k :
  NoDup (attrs cls) → attrs cls !! i = Some k →
  k ∉ take j (drop (S i) (attrs cls)).
Proof.
  intros Hnd Hi (n & Hn)%list_elem_of_lookup.
  apply lookup_take_Some in Hn as [Hn _]. rewrite lookup_drop in Hn.
  pose proof (NoDup_lookup _ _ _ _ Hnd Hi Hn). lia.
Qed.

Lemma merge_args_ok i args kw :
  i + length args ≤ length (attrs cls) →
  ∃ merged, merge_args i args kw = Return merged ∧
    dom merged = dom kw ∪ list_to_set (take (length args) (drop i (attrs cls))) ∧
    (∀ k, k ∉ take (length args) (drop i (attrs cls)) → merged !! k = kw !! k) ∧
    (NoDup (attrs cls) → ∀ j v k,
       args !! j = Some v → attrs cls !! (i + j) = Some k → merged !! k = Some v).
Proof.
  revert i kw. induction args as [|a args IH]; intros i kw Hlen; simpl in *.
  - exists kw. split_and!; [done|set_solver|done|done].
  - destruct (attrs cls !! i) as [k|] eqn:Hi;
      [|apply lookup_ge_None in Hi; lia].
    destruct (IH (S i) (<[k:=a]> kw)) as (merged & -> & Hdom & Hout & Hin); [lia|].
    rewrite (drop_S _ _ _ Hi). simpl.
    exists merged. split_and!; [done| | |].
    + rewrite Hdom, dom_insert_L. set_solver.
    + intros k' Hk'. rewrite not_elem_of_cons in Hk'. destruct Hk' as [Hne Hk'].
      rewrite (Hout _ Hk'). by rewrite lookup_insert_ne.
    + intros Hnd [|j] v k' Hj Hk'; simpl in Hj.
      * injection Hj as ->. rewrite Nat.add_0_r, Hi in Hk'. injection Hk' as ->.
        rewrite Hout by (by apply attrs_later_ne).
        apply lookup_insert_eq.
      * apply (Hin Hnd j); [done|]. by replace (S i + j) with (i + S j) by lia.
Qed.

Lemma merged_unknown args kwargs merged :
  length args ≤ length (attrs cls) →
  merge_args 0 args kwargs = Return merged →
  unknown_names cls merged = dom kwargs ∖ list_to_set (attrs cls).
Proof.
  intros Hlen Hm. destruct (merge_args_ok 0 args kwargs) as (m & Hm' & Hdom & _); [done|].
  rewrite Hm in Hm'. injection Hm' as <-. unfold unknown_names. rewrite Hdom.
  assert (take (length args) (drop 0 (attrs cls)) ⊆ attrs cls) as Hsub.
  { rewrite drop_0. apply subseteq_take. }
  set_solver.
Qed.

(** The attribute dictionary after the final loop over [ks]. *)
Definition stored (kw : gmap string pyval) (ks : list string)
    (d : gmap string pyval) : gmap string pyval :=
  foldl (λ d k, <[k := attr_value cls kw k]> d) d ks.

Lemma set_attrs_run ks kw self :
  set_attrs cls ks kw self =
    (Return tt, {| fields := stored kw ks (fields self);
                   trace := trace self ++ ((λ k, SetAttr k (attr_value cls kw k)) <$> ks) |}).
Proof.
  revert self. induction ks as [|k ks IH]; intros self; simpl.
  - unfold ret. rewrite app_nil_r. by destruct self.
  - unfold bind, setattr. rewrite IH. simpl. by rewrite <- app_assoc.
Qed.

Lemma stored_lookup kw ks d k :
  stored kw ks d !! k = if decide (k ∈ ks) then Some (attr_value cls kw k) else d !! k.
Proof.
  revert d. induction ks as [|k' ks IH]; intros d.
  - by rewrite decide_False by set_solver.
  - unfold stored in *. simpl. rewrite IH.
    destruct (decide (k ∈ ks)) as [Hin|Hnin].
    + rewrite decide_True by set_solver. done.
    + destruct (decide (k = k')) as [->|Hne].
      * rewrite decide_True by set_solver. apply lookup_insert_eq.
      * rewrite decide_False by set_solver. by apply lookup_insert_ne.
Qed.

(** A call whose arguments all target schema names goes through, and leaves
    each schema attribute at its positional value, else its keyword value,
    else its default, else [None]. *)
Lemma init_valid_run skype raw args kwargs self :
  NoDup (attrs cls) →
  length args ≤ length (attrs cls) →
  dom kwargs ⊆ list_to_set (attrs cls) →
  ∃ merged,
    merge_args 0 args kwargs = Return merged ∧
    __init__ skype raw args kwargs self =
      (Return tt,
       {| fields := stored merged (attrs cls) (base_init skype raw (fields self));
          trace := (trace self ++ [BaseInit skype raw])
                   ++ ((λ k, SetAttr k (attr_value cls merged k)) <$> attrs cls) |}) ∧
    ∀ i k, attrs cls !! i = Some k →
      attr_value cls merged k =
        match args !! i with
        | Some v => v
        | None => match kwargs !! k with
                  | Some v => v
                  | None => default VNone (defaults cls !! k)
                  end
        end.
Proof.
  intros Hnd Hlen Hdom.
  destruct (merge_args_ok 0 args kwargs) as (merged & Hm & _ & Hout & Hin); [done|].
  exists merged. split; [done|]. split.
  - rewrite init_unfold, Hm.
    rewrite decide_True by (rewrite (merged_unknown _ _ _ Hlen Hm); set_solver).
    by rewrite set_attrs_run.
  - intros i k Hi. unfold attr_value.
    destruct (args !! i) as [v|] eqn:Ha.
    + by rewrite (Hin Hnd i v k Ha Hi).
    + rewrite Hout; [done|]. rewrite drop_0.
      intros (j & Hj)%list_elem_of_lookup. apply lookup_take_Some in Hj as [Hj Hlt].
      pose proof (NoDup_lookup _ _ _ _ Hnd Hi Hj) as ->.
      apply lookup_ge_None in Ha. lia.
Qed.


Lemma sorted_unknown (unknown : gset string) :
  let names := merge_sort String.le (elements unknown) in
  StronglySorted String.le names ∧ NoDup names ∧ ∀ k, k ∈ names ↔ k ∈ unknown.
Proof.
  intros names. split_and!.
  - apply StronglySorted_merge_sort; apply _.
  - unfold names. rewrite merge_sort_Permutation. apply NoDup_elements.
  - intros k. unfold names. rewrite merge_sort_Permutation. apply elem_of_elements.
Qed.

(** A keyword outside the schema among the bound [kwargs] makes the body
    raise [TypeError] after the base initializer has run. *)
Lemma init_body_unknown skype raw args kwargs self :
  length args ≤ length (attrs cls) →
  (∃ k, k ∈ dom kwargs ∧ k ∉ attrs cls) →
  ∃ names,
    __init__ skype raw args kwargs self =
      (Raise (TypeError ("__init__() got " ++ unknown_text names)%string),
       {| fields := base_init skype raw (fields self);
          trace := trace self ++ [BaseInit skype raw] |}) ∧
    StronglySorted String.le names ∧ NoDup names ∧
    (∀ k, k ∈ names ↔ k ∈ dom kwargs ∧ k ∉ attrs cls).
Proof.
  intros Hlen (k0 & Hk0 & Hk0').
  destruct (merge_args_ok 0 args kwargs) as (merged & Hm & _); [done|].
  pose proof (merged_unknown _ _ _ Hlen Hm) as Hunk.
  exists (merge_sort String.le (elements (unknown_names cls merged))).
  destruct (sorted_unknown (unknown_names cls merged)) as (Hs & Hnd & Hin).
  split_and!; [|done|done|].
  - rewrite init_unfold, Hm. rewrite decide_False by (rewrite Hunk; set_solver).
    done.
  - intros k. rewrite Hin, Hunk. set_solver.
Qed.

Lemma bind_keywords_ok taken kws :
  Forall (λ k, k ∉ taken) kws.*1 →
  bind_keywords taken kws = Return (list_to_map kws).
Proof.
  induction kws as [|[k v] kws IH]; intros Hk; simpl in *; [done|].
  apply Forall_cons_1 in Hk as [Hk Hrest].
  rewrite decide_False by done. by rewrite IH.
Qed.

(** A call in which no keyword names a parameter that is already filled
    runs the body, with [skype] and [raw] taken by position, else by name,
    else [None], and with the other keywords as [kwargs]. *)
Lemma construct_binds pos kws self :
  Forall (λ k, k ∉ filled pos) kws.*1 →
  construct pos kws self =
    __init__ (param pos (list_to_map kws) 0 "skype")
      (param pos (list_to_map kws) 1 "raw") (drop 2 pos)
      (delete "skype" (delete "raw" (list_to_map kws))) self.
Proof.
  intros Hk. unfold Schema.construct, bind_call. by rewrite bind_keywords_ok.
Qed.

Lemma self_not_keyword pos (kws : list (string * pyval)) :
  Forall (λ k, k ∉ filled pos) kws.*1 → "self" ∉ kws.*1.
Proof.
  rewrite list.Forall_forall. intros Hk Hin. apply (Hk _ Hin).
  unfold filled, params. simpl. set_solver.
Qed.

Lemma bound_kwargs_dom pos (kws : list (string * pyval)) :
  Forall (λ k, k ∉ filled pos) kws.*1 →
  dom (delete "skype" (delete "raw" (list_to_map kws : gmap string pyval)))
  = list_to_set kws.*1 ∖ list_to_set params.
Proof.
  intros Hself%self_not_keyword.
  rewrite !dom_delete_L, dom_list_to_map_L. unfold params.
  apply set_eq. intros k. rewrite !elem_of_difference, !elem_of_list_to_set.
  rewrite !elem_of_singleton, !elem_of_cons, elem_of_nil.
  split; [|tauto]. intros [[Hin Hraw] Hskype]. split; [done|].
  intros [->| [->| [->|[]]]]; done.
Qed.

(** C1 (amended): a call that binds, with no more positional schema
    arguments than the schema has attributes and with at least one keyword
    that is neither a schema attribute nor one of the initializer's own
    parameters, raises [TypeError]; its message lists exactly those
    keywords, sorted and without repetition; and [self] is left as the
    base initializer left it, no schema attribute having been set. *)
Theorem init_unknown_keyword pos kws self :
  NoDup kws.*1 →
  Forall (λ k, k ∉ filled pos) kws.*1 →
  length pos ≤ 2 + length (attrs cls) →
  (∃ k, (k ∈ kws.*1) ∧ (k ∉ params) ∧ (k ∉ attrs cls)) →
  ∃ names,
    construct pos kws self =
      (Raise (TypeError ("__init__() got " ++ unknown_text names)%string),
       {| fields := base_init (param pos (list_to_map kws) 0 "skype")
                      (param pos (list_to_map kws) 1 "raw") (fields self);
          trace := trace self
                   ++ [BaseInit (param pos (list_to_map kws) 0 "skype")
                         (param pos (list_to_map kws) 1 "raw")] |}) ∧
    StronglySorted String.le names ∧ NoDup names ∧
    (∀ k, k ∈ names ↔ (k ∈ kws.*1) ∧ (k ∉ params) ∧ (k ∉ attrs cls)).
Proof.
  intros _ Hbind Hlen (k0 & Hk0 & Hp0 & Ha0).
  rewrite construct_binds by done.
  pose proof (bound_kwargs_dom pos kws Hbind) as Hdom.
  destruct (init_body_unknown (param pos (list_to_map kws) 0 "skype")
              (param pos (list_to_map kws) 1 "raw") (drop 2 pos)
              (delete "skype" (delete "raw" (list_to_map kws))) self)
    as (names & Hrun & Hs & Hnd & Hin).
  - rewrite length_drop. lia.
  - exists k0. split; [|done]. rewrite Hdom. set_solver.
  - exists names. split_and!; [done..|].
    intros k. rewrite Hin, Hdom. set_solver.
Qed.

Lemma bound_kwargs_in_schema pos (kws : list (string * pyval)) :
  Forall (λ k, k ∉ filled pos) kws.*1 →
  Forall (λ k, k ∈ attrs cls ∨ k ∈ params) kws.*1 →
  dom (delete "skype" (delete "raw" (list_to_map kws : gmap string pyval)))
  ⊆ list_to_set (attrs cls).
Proof.
  intros Hbind Hin. rewrite (bound_kwargs_dom pos kws Hbind).
  rewrite list.Forall_forall in Hin. intros k Hk.
  apply elem_of_difference in Hk as [Hk Hp].
  rewrite elem_of_list_to_set in Hk, Hp. rewrite elem_of_list_to_set.
  by destruct (Hin k Hk).
Qed.

Lemma bound_kwargs_lookup (named : gmap string pyval) k :
  k ∉ params → delete "skype" (delete "raw" named) !! k = named !! k.
Proof.
  unfold params. intros Hk.
  rewrite !lookup_delete_ne by (intros <-; set_solver). done.
Qed.

(** C2 (amended): for a schema that does not reuse the names of the
    initializer's own parameters, a call that binds and whose schema
    arguments all target schema names succeeds, and afterwards each schema
    attribute holds the positional schema argument at its index if there is
    one, else the keyword argument of its name, else its declared default,
    else [None]. *)
Theorem init_sets_every_attribute pos kws self :
  NoDup (attrs cls) →
  Forall (λ k, k ∉ params) (attrs cls) →
  NoDup kws.*1 →
  Forall (λ k, k ∉ filled pos) kws.*1 →
  length pos ≤ 2 + length (attrs cls) →
  Forall (λ k, k ∈ attrs cls ∨ k ∈ params) kws.*1 →
  ∃ self',
    construct pos kws self = (Return tt, self') ∧
    ∀ i k, attrs cls !! i = Some k →
      fields self' !! k =
        Some match pos !! (2 + i) with
             | Some v => v
             | None => match (list_to_map kws : gmap string pyval) !! k with
                       | Some v => v
                       | None => default VNone (defaults cls !! k)
                       end
             end.
Proof.
  intros Hnd Hown _ Hbind Hlen Hin.
  rewrite construct_binds by done.
  destruct (init_valid_run (param pos (list_to_map kws) 0 "skype")
              (param pos (list_to_map kws) 1 "raw") (drop 2 pos)
              (delete "skype" (delete "raw" (list_to_map kws))) self)
    as (merged & _ & -> & Hval);
    [done|rewrite length_drop; lia|by eapply bound_kwargs_in_schema|].
  eexists. split; [done|]. intros i k Hi. simpl.
  rewrite stored_lookup, decide_True by (by eapply list_elem_of_lookup_2).
  rewrite (Hval i k Hi), lookup_drop, bound_kwargs_lookup; [done|].
  rewrite list.Forall_forall in Hown. by eapply Hown, list_elem_of_lookup_2.
Qed.

(** C8 (amended): the generated initializer first defers to the base
    initializer with (skype, raw); the schema attributes are set after
    that, in schema order, when the arguments pass validation, and not at
    all when the call raises. *)
Theorem init_base_then_attrs skype raw args kwargs self :
  ∃ sets,
    trace (__init__ skype raw args kwargs self).2
      = trace self ++ BaseInit skype raw :: sets ∧
    match (__init__ skype raw args kwargs self).1 with
    | Return _ =>
        ∃ merged, merge_args 0 args kwargs = Return merged ∧
          sets = (λ k, SetAttr k (attr_value cls merged k)) <$> attrs cls
    | Raise _ => sets = []
    end.
Proof.
  rewrite init_unfold. destruct (merge_args 0 args kwargs) as [e|merged] eqn:Hm.
  - by exists [].
  - case_decide.
    + rewrite set_attrs_run. simpl. eexists. split; [by rewrite <- app_assoc|].
      by exists merged.
    + by exists [].
Qed.


End initAttrs_facts.

(** *** Concrete calls *)

Definition one_attr : pyclass := {| attrs := ["a"]; defaults := ∅ |}.

Definition user_cls : pyclass :=
  {| attrs := ["id"; "name"; "mood"]; defaults := {["mood" := VStr "none"]} |}.

Lemma user_cls_NoDup : NoDup (attrs user_cls).
Proof. apply (bool_decide_unpack _). by vm_compute. Qed.

Example init_user :
  (λ d : gmap string pyval, (d !! "id", d !! "name", d !! "mood", d !! "raw"))
    (fields (__init__ SkypeObj_init user_cls VNone VNone [VStr "8:alice"]
               {["name" := VStr "Alice"]} new_instance).2)
  = (Some (VStr "8:alice"), Some (VStr "Alice"), Some (VStr "none"), Some VNone).
Proof. vm_compute. reflexivity. Qed.

Example init_two_unknown :
  (__init__ SkypeObj_init user_cls VNone VNone []
     {["zeta" := VInt 1; "name" := VInt 2; "alpha" := VInt 3]} new_instance).1
  = Raise (TypeError "__init__() got unexpected keyword arguments 'alpha', 'zeta'").
Proof. by vm_compute. Qed.

(** A schema that reuses the name of a parameter of the initializer. *)
Definition raw_attr : pyclass := {| attrs := ["raw"]; defaults := ∅ |}.

(** C1, as stated, fails twice.  A keyword that names a parameter of the
    initializer is outside the schema, yet it binds that parameter and the
    object is constructed.  And with more positional schema arguments than
    schema attributes the merge raises [IndexError] before the keywords are
    checked, and the message names no keyword. *)
Lemma init_unknown_keyword_exceptions :
  ("raw" ∉ attrs one_attr) ∧
  (construct SkypeObj_init one_attr [] [("raw", VInt 5)] new_instance).1
    = Return tt ∧
  ("z" ∉ attrs one_attr) ∧
  (construct SkypeObj_init one_attr [VNone; VNone; VInt 1; VInt 2]
     [("z", VInt 3)] new_instance).1 = Raise IndexError.
Proof.
  split_and!.
  - unfold one_attr. simpl. set_solver.
  - vm_compute. reflexivity.
  - unfold one_attr. simpl. set_solver.
  - vm_compute. reflexivity.
Qed.

Lemma init_unknown_keyword_witness :
  ∃ names,
    construct SkypeObj_init user_cls [VNone; VNone; VStr "8:bob"]
      [("zeta", VInt 1); ("alpha", VInt 3)] new_instance =
      (Raise (TypeError ("__init__() got " ++ unknown_text names)),
       {| fields := SkypeObj_init VNone VNone ∅;
          trace := [BaseInit VNone VNone] |}) ∧
    StronglySorted String.le names ∧ NoDup names ∧
    (∀ k, k ∈ names ↔
       (k ∈ [("zeta", VInt 1); ("alpha", VInt 3)].*1) ∧ (k ∉ params)
       ∧ (k ∉ attrs user_cls)).
Proof.
  apply (init_unknown_keyword SkypeObj_init user_cls [VNone; VNone; VStr "8:bob"]
           [("zeta", VInt 1); ("alpha", VInt 3)] new_instance).
  - apply (bool_decide_unpack _). vm_compute. reflexivity.
  - apply (bool_decide_unpack _). vm_compute. reflexivity.
  - simpl. lia.
  - exists "zeta". apply (bool_decide_unpack _). vm_compute. reflexivity.
Defined.

(** C2, as stated, fails for a schema that reuses the name of a parameter
    of the initializer: the keyword binds the parameter, never reaches
    [kwargs], and the attribute is set to [None], not to the value passed. *)
Lemma init_keyword_raw_not_stored :
  let made := construct SkypeObj_init raw_attr [] [("raw", VInt 5)] new_instance in
  (["raw"] ⊆ attrs raw_attr) ∧
  made.1 = Return tt ∧
  fields made.2 !! "raw" = Some VNone ∧
  fields made.2 !! "raw" ≠ Some (VInt 5).
Proof.
  intros made. split_and!.
  - done.
  - vm_compute. reflexivity.
  - vm_compute. reflexivity.
  - vm_compute. discriminate.
Qed.

Lemma init_sets_every_attribute_witness :
  ∃ self',
    construct SkypeObj_init user_cls [VNone; VNone; VStr "8:alice"]
      [("name", VStr "Alice")] new_instance = (Return tt, self') ∧
    ∀ i k, attrs user_cls !! i = Some k →
      fields self' !! k =
        Some match [VNone; VNone; VStr "8:alice"] !! (2 + i) with
             | Some v => v
             | None => match (list_to_map [("name", VStr "Alice")]
                                : gmap string pyval) !! k with
                       | Some v => v
                       | None => default VNone (defaults user_cls !! k)
                       end
             end.
Proof.
  apply (init_sets_every_attribute SkypeObj_init user_cls
           [VNone; VNone; VStr "8:alice"] [("name", VStr "Alice")] new_instance).
  - exact user_cls_NoDup.
  - apply (bool_decide_unpack _). vm_compute. reflexivity.
  - apply (bool_decide_unpack _). vm_compute. reflexivity.
  - apply (bool_decide_unpack _). vm_compute. reflexivity.
  - simpl. lia.
  - apply (bool_decide_unpack _). vm_compute. reflexivity.
Defined.

(** C8, as stated, fails: the attribute is set after the base initializer. *)
Lemma init_sets_after_base :
  trace (__init__ SkypeObj_init one_attr VNone VNone [VInt 1] ∅ new_instance).2
    = [BaseInit VNone VNone; SetAttr "a" (VInt 1)] ∧
  sets_before_base
    (trace (__init__ SkypeObj_init one_attr VNone VNone [VInt 1] ∅ new_instance).2) = false.
Proof. split; by vm_compute. Qed.



(** *** Further behaviour of the generated initializer *)

Section initAttrs_more.
Variable base_init : pyval → pyval → gmap string pyval → gmap string pyval.
Variable cls : pyclass.

Local Open Scope nat_scope.
Local Open Scope list_scope.




Lemma init_body_one_unknown skype raw args kwargs self k :
  length args ≤ length (attrs cls) →
  dom kwargs ∖ list_to_set (attrs cls) = {[k]} →
  (__init__ base_init cls skype raw args kwargs self).1 =
    Raise (TypeError ("__init__() got an unexpected keyword argument '" ++ k ++ "'")%string).
Proof.
  intros Hlen Hone.
  destruct (merge_args_ok base_init cls 0 args kwargs) as (merged & Hm & _); [done|].
  pose proof (merged_unknown base_init cls _ _ _ Hlen Hm) as Hunk. rewrite Hone in Hunk.
  rewrite init_unfold, Hm, Hunk.
  rewrite decide_False by set_solver. simpl.
  unfold unknown_error. by rewrite elements_singleton.
Qed.

(** X3: in a call that binds and has no more positional schema arguments
    than the schema has attributes, exactly one keyword that is neither a
    schema attribute nor a parameter of the initializer: the message is the
    singular one, naming that keyword. *)
Theorem init_one_unknown pos kws self k :
  NoDup kws.*1 →
  Forall (λ k, k ∉ filled pos) kws.*1 →
  length pos ≤ 2 + length (attrs cls) →
  list_to_set kws.*1 ∖ list_to_set params ∖ list_to_set (attrs cls)
    =@{gset string} {[k]} →
  (construct base_init cls pos kws self).1 =
    Raise (TypeError ("__init__() got an unexpected keyword argument '" ++ k ++ "'")%string).
Proof.
  intros _ Hbind Hlen Hone.
  rewrite construct_binds by done.
  apply init_body_one_unknown; [rewrite length_drop; lia|].
  by rewrite (bound_kwargs_dom pos kws Hbind).
Qed.
End initAttrs_more.



Lemma init_one_unknown_witness :
  (construct SkypeObj_init user_cls [VNone]
     [("raw", VStr "{}"); ("name", VStr "Alice"); ("colour", VInt 3)]
     new_instance).1 =
    Raise (TypeError ("__init__() got an unexpected keyword argument '" ++ "colour" ++ "'")).
Proof.
  apply (init_one_unknown SkypeObj_init user_cls [VNone]
           [("raw", VStr "{}"); ("name", VStr "Alice"); ("colour", VInt 3)]
           new_instance "colour").
  - apply (bool_decide_unpack _). vm_compute. reflexivity.
  - apply (bool_decide_unpack _). vm_compute. reflexivity.
  - simpl. lia.
  - apply set_eq. intros k. unfold user_cls, params. simpl. set_solver.
Defined.

End Schema.

(** ** The identifier reference resolver: [convertIds] *)

Module Resolver.

(** The three resolution functions a property can be built from. *)
Inductive resolver : Type := UserObj | UserObjs | ChatObj.

(** The properties [convertIds] attaches to a class: property name to
    resolution function and identifier field ([functools.partial(fn,
    field=idField)]). *)
Definition properties : Type := gmap string (resolver * string).

(** [setattr(cls, field, property(...))]: a later property of the same name
    replaces an earlier one. *)
Definition attach (cls : properties) (fn : resolver) (field idField : string)
    : properties :=
  <[field := (fn, idField)]> cls.

(** One step of [for type in types]; other tokens are skipped. *)
Definition attach_type (cls : properties) (type : string) : properties :=
  if String.eqb type "user" then attach cls UserObj "user" "userId"
  else if String.eqb type "users" then attach cls UserObjs "users" "userIds"
  else if String.eqb type "chat" then attach cls ChatObj "chat" "chatId"
  else cls.

(** The decorator [convertIds] returns, applied to [cls]: the shorthand
    [types] first, then the named [user], [users] and [chat] fields. *)
Definition wrapper (types user users chat : list string) (cls : properties)
    : properties :=
  let cls := foldl attach_type cls types in
  let cls := foldl (λ c field, attach c UserObj field (field ++ "Id")) cls user in
  let cls := foldl (λ c field, attach c UserObjs (field ++ "s") (field ++ "Ids")) cls users in
  foldl (λ c field, attach c ChatObj field (field ++ "Id")) cls chat.

Section resolution.
(** The session's directories live outside [util.py]; all the resolver
    uses of one is the subscription [directory[id]], which returns an
    entity or raises. *)
Context {Directory Entity : Type}.
Variable getitem : Directory → pyval → result Entity.

Record session : Type := { contacts : Directory; chats : Directory }.

(** An entity as the resolver sees it: [self.skype] ([None] or a session)
    and the identifier fields. *)
Record object : Type := {
  skype : option session;
  fields : gmap string pyval;
}.

(** What reading an attribute yields: a resolved entity, the generator of
    [userObjs] with the identifiers it has yet to look up, or a plain
    field. *)
Inductive value : Type :=
  | Resolved (e : Entity)
  | Generator (ids : list pyval)
  | Plain (v : pyval).

Definition getattr (self : object) (field : string) : result pyval :=
  match fields self !! field with
  | Some v => Return v
  | None => Raise (AttributeError field)
  end.

(** [self.skype.contacts], [self.skype.chats] *)
Definition directory (pick : session → Directory) (name : string)
    (self : object) : result Directory :=
  match skype self with
  | Some s => Return (pick s)
  | None => Raise (AttributeError name)
  end.

(** [return self.skype.contacts[getattr(self, field)]] *)
Definition userObj (self : object) (field : string) : result Entity :=
  match directory contacts "contacts" self with
  | Raise e => Raise e
  | Return d =>
      match getattr self field with
      | Raise e => Raise e
      | Return id => getitem d id
      end
  end.

(** [return (self.skype.contacts[id] for id in getattr(self, field))]:
    the field is read and iterated at once, the lookups wait. *)
Definition userObjs (self : object) (field : string) : result (list pyval) :=
  match getattr self field with
  | Raise e => Raise e
  | Return ids => py_iter ids
  end.

(** [next()] on that generator: the entity of the first pending
    identifier, and the identifiers left. *)
Definition next (self : object) (ids : list pyval)
    : option (result Entity * list pyval) :=
  match ids with
  | [] => None
  | id :: rest =>
      Some (match directory contacts "contacts" self with
            | Raise e => Raise e
            | Return d => getitem d id
            end, rest)
  end.

(** [return self.skype.chats[getattr(self, field)]] *)
Definition chatObj (self : object) (field : string) : result Entity :=
  match directory chats "chats" self with
  | Raise e => Raise e
  | Return d =>
      match getattr self field with
      | Raise e => Raise e
      | Return id => getitem d id
      end
  end.

(** Reading [self.name] on an instance of a class with properties [cls]:
    a property takes precedence over the instance dictionary. *)
Definition read (cls : properties) (self : object) (name : string)
    : result value :=
  match cls !! name with
  | Some (UserObj, idField) =>
      match userObj self idField with
      | Raise e => Raise e
      | Return e => Return (Resolved e)
      end
  | Some (UserObjs, idField) =>
      match userObjs self idField with
      | Raise e => Raise e
      | Return ids => Return (Generator ids)
      end
  | Some (ChatObj, idField) =>
      match chatObj self idField with
      | Raise e => Raise e
      | Return e => Return (Resolved e)
      end
  | None =>
      match getattr self name with
      | Raise e => Raise e
      | Return v => Return (Plain v)
      end
  end.

(** C6: reading a user-kind accessor looks the stored identifier up in the
    session's contacts directory: it returns the entity the directory
    returns, and an error raised by the lookup reaches the caller. *)
Theorem user_accessor_lookup cls self name idField sess id :
  cls !! name = Some (UserObj, idField) →
  skype self = Some sess →
  fields self !! idField = Some id →
  (∀ e, getitem (contacts sess) id = Return e →
        read cls self name = Return (Resolved e)) ∧
  (∀ miss, getitem (contacts sess) id = Raise miss →
           read cls self name = Raise miss).
Proof.
  intros Hp Hs Hf. unfold read, userObj, directory, getattr.
  rewrite Hp, Hs, Hf. by split; intros ? ->.
Qed.
End resolution.

Arguments Resolved {Entity} e.
Arguments Generator {Entity} ids.
Arguments Plain {Entity} v.

Example shorthand_user :
  wrapper ["user"] [] [] [] ∅ !! "user" = Some (UserObj, "userId").
Proof. by vm_compute. Qed.

Example named_creator :
  (λ cls : properties, (cls !! "chat", cls !! "creator", cls !! "members"))
    (wrapper ["chat"] ["creator"] ["member"] [] ∅)
  = (Some (ChatObj, "chatId"), Some (UserObj, "creatorId"),
     Some (UserObjs, "memberIds")).
Proof. vm_compute. reflexivity. Qed.

(** Modelled from the spec: a directory is an identifier-keyed associative
    store of entities; looking an identifier up returns its entity, and a
    miss is a lookup failure. *)
Definition dict_getitem (d : gmap string string) (id : pyval) : result string :=
  match id with
  | VStr s => match d !! s with
              | Some e => Return e
              | None => Raise (KeyError id)
              end
  | _ => if hashable id then Raise (KeyError id)
         else Raise (TypeError "unhashable type: 'list'")
  end.

Definition alice_session : @session (gmap string string) :=
  {| contacts := {["alice" := "<SkypeUser alice>"]}; chats := ∅ |}.

Definition message (userId : string) : @object (gmap string string) :=
  {| skype := Some alice_session; fields := {["userId" := VStr userId]} |}.

Lemma user_accessor_lookup_witness :
  (∀ e, dict_getitem (contacts alice_session) (VStr "alice") = Return e →
        read dict_getitem (wrapper ["user"] [] [] [] ∅) (message "alice") "user"
        = Return (Resolved e)) ∧
  (∀ miss, dict_getitem (contacts alice_session) (VStr "alice") = Raise miss →
           read dict_getitem (wrapper ["user"] [] [] [] ∅) (message "alice") "user"
           = Raise miss).
Proof.
  apply (user_accessor_lookup dict_getitem (wrapper ["user"] [] [] [] ∅)
           (message "alice") "user" "userId" alice_session (VStr "alice")).
  - by vm_compute.
  - reflexivity.
  - by vm_compute.
Defined.

Example user_alice :
  read dict_getitem (wrapper ["user"] [] [] [] ∅) (message "alice") "user"
  = Return (Resolved "<SkypeUser alice>").
Proof. by vm_compute. Qed.

Example user_missing :
  read dict_getitem (wrapper ["user"] [] [] [] ∅) (message "bob") "user"
  = Raise (KeyError (VStr "bob")).
Proof. by vm_compute. Qed.

(** *** The other accessors, and the names [convertIds] attaches *)

(** The shorthand tokens [wrapper] acts on. *)
Definition kinds : list string := ["user"; "users"; "chat"].

(** The property names a declaration attaches, in the order it attaches
    them. *)
Definition declared (types user users chat : list string) : list string :=
  (filter (λ t, t ∈ kinds) types ++ user
   ++ ((λ f, (f ++ "s")%string) <$> users) ++ chat)%list.

Lemma attach_type_dom (t : string) (cls : properties) :
  dom (attach_type cls t) = dom cls ∪ list_to_set (filter (λ t, t ∈ kinds) [t]).
Proof.
  unfold attach_type, attach, properties in *.
  destruct (String.eqb_spec t "user") as [->|E1].
  { rewrite dom_insert_L. set_solver. }
  destruct (String.eqb_spec t "users") as [->|E2].
  { rewrite dom_insert_L. set_solver. }
  destruct (String.eqb_spec t "chat") as [->|E3].
  { rewrite dom_insert_L. set_solver. }
  rewrite filter_cons_False by (unfold kinds; set_solver). set_solver.
Qed.

Lemma attach_types_dom (types : list string) (cls : properties) :
  dom (foldl attach_type cls types) = dom cls ∪ list_to_set (filter (λ t, t ∈ kinds) types).
Proof.
  revert cls. induction types as [|t types IH]; intros cls; simpl.
  - set_solver.
  - rewrite IH, attach_type_dom, !filter_cons, filter_nil.
    case_decide; set_solver.
Qed.

Lemma attach_fields_dom (fn : resolver) (g h : string → string)
    (fs : list string) (cls : properties) :
  dom (foldl (λ c field, attach c fn (g field) (h field)) cls fs)
  = dom cls ∪ list_to_set (g <$> fs).
Proof.
  revert cls. induction fs as [|f fs IH]; intros cls; simpl.
  - set_solver.
  - rewrite IH. unfold attach, properties in *. rewrite dom_insert_L. set_solver.
Qed.

(** X4: the decorated class has the properties it had, plus one for each
    recognised shorthand token and each named field; tokens other than
    [user], [users] and [chat] attach nothing. *)
Theorem wrapper_names (types user users chat : list string) (cls : properties) :
  dom (wrapper types user users chat cls)
  = dom cls ∪ list_to_set (declared types user users chat).
Proof.
  unfold wrapper, declared.
  rewrite (attach_fields_dom ChatObj id (λ f, f ++ "Id")).
  rewrite (attach_fields_dom UserObjs (λ f, f ++ "s") (λ f, f ++ "Ids")).
  rewrite (attach_fields_dom UserObj id (λ f, f ++ "Id")).
  rewrite attach_types_dom, !list_fmap_id, !list_to_set_app_L. set_solver.
Qed.

Lemma attach_chat_keeps (fs : list string) (cls : properties) (field : string) :
  cls !! field = Some (ChatObj, field ++ "Id") →
  foldl (λ c f, attach c ChatObj f (f ++ "Id")) cls fs !! field
  = Some (ChatObj, field ++ "Id").
Proof.
  revert cls. induction fs as [|f fs IH]; intros cls Hc; simpl; [done|].
  apply IH. unfold attach, properties in *. destruct (decide (f = field)) as [->|Hne].
  - apply lookup_insert_eq.
  - by rewrite lookup_insert_ne.
Qed.

(** X5: the named chat fields are attached last, so a name declared under
    [chat] is a chat accessor on [nameId] whatever else was declared under
    that name. *)
Theorem wrapper_chat_last (types user users chat : list string)
    (cls : properties) (field : string) :
  field ∈ chat →
  wrapper types user users chat cls !! field = Some (ChatObj, field ++ "Id").
Proof.
  intros Hin. unfold wrapper.
  generalize (foldl (λ c f, attach c UserObjs (f ++ "s") (f ++ "Ids"))
                (foldl (λ c f, attach c UserObj f (f ++ "Id"))
                   (foldl attach_type cls types) user) users).
  induction chat as [|f chat IH]; intros c; [set_solver|]. simpl.
  destruct (decide (f = field)) as [->|Hne].
  - apply attach_chat_keeps. unfold attach, properties in *. apply lookup_insert_eq.
  - apply IH. set_solver.
Qed.

Section resolution_more.
Context {Directory Entity : Type}.
Variable getitem : Directory → pyval → result Entity.

(** The generator of [userObjs] consumed to its end, as [list(...)] does:
    the entities it yields, and the exception that ends it, if any. *)
Fixpoint drain (self : @object Directory) (ids : list pyval)
    : list Entity * option exn :=
  match ids with
  | [] => ([], None)
  | _ :: rest =>
      match next getitem self ids with
      | Some (Return e, _) =>
          let (es, r) := drain self rest in (e :: es, r)
      | Some (Raise err, _) => ([], Some err)
      | None => ([], None)
      end
  end.

(** X6: a chat-kind accessor looks the stored identifier up in the chats
    directory: it returns the entity that lookup returns and raises what it
    raises. *)
Theorem chat_accessor_lookup cls (self : @object Directory) name idField sess id :
  cls !! name = Some (ChatObj, idField) →
  skype self = Some sess →
  fields self !! idField = Some id →
  (∀ e, getitem (chats sess) id = Return e →
        read getitem cls self name = Return (Resolved e)) ∧
  (∀ miss, getitem (chats sess) id = Raise miss →
           read getitem cls self name = Raise miss).
Proof.
  intros Hp Hs Hf. unfold read, chatObj, directory, getattr.
  rewrite Hp, Hs, Hf. by split; intros ? ->.
Qed.

Lemma drain_all (self : @object Directory) sess ids es :
  skype self = Some sess →
  Forall2 (λ id e, getitem (contacts sess) id = Return e) ids es →
  drain self ids = (es, None).
Proof.
  intros Hs Hall. induction Hall as [|id e ids es He _ IH]; [done|].
  simpl. unfold directory. by rewrite Hs, He, IH.
Qed.

(** X7: a users-kind accessor over identifiers that are all in the contacts
    directory: reading it gives a generator, and consuming the generator
    gives the entities of the identifiers, in the order of the stored list. *)
Theorem users_accessor_in_order cls (self : @object Directory) name idField
    sess v ids es :
  cls !! name = Some (UserObjs, idField) →
  skype self = Some sess →
  fields self !! idField = Some v →
  py_iter v = Return ids →
  Forall2 (λ id e, getitem (contacts sess) id = Return e) ids es →
  read getitem cls self name = Return (Generator ids) ∧
  drain self ids = (es, None).
Proof.
  intros Hp Hs Hf Hiter Hall. split.
  - unfold read, userObjs, getattr. by rewrite Hp, Hf, Hiter.
  - by eapply drain_all.
Qed.

(** X8: a users-kind accessor is lazy: reading it succeeds even when an
    identifier is missing from the directory; the miss is raised when the
    generator reaches that identifier, after the entities before it have
    been yielded, and nothing after it is looked up. *)
Theorem users_accessor_first_miss cls (self : @object Directory) name idField
    sess v ids1 id ids2 es1 miss :
  cls !! name = Some (UserObjs, idField) →
  skype self = Some sess →
  fields self !! idField = Some v →
  py_iter v = Return (ids1 ++ id :: ids2)%list →
  Forall2 (λ id e, getitem (contacts sess) id = Return e) ids1 es1 →
  getitem (contacts sess) id = Raise miss →
  read getitem cls self name = Return (Generator (ids1 ++ id :: ids2)%list) ∧
  drain self (ids1 ++ id :: ids2)%list = (es1, Some miss).
Proof.
  intros Hp Hs Hf Hiter Hall Hmiss. split.
  - unfold read, userObjs, getattr. by rewrite Hp, Hf, Hiter.
  - clear Hp Hf Hiter.
    induction Hall as [|id' e ids es He _ IH]; simpl.
    + unfold directory. by rewrite Hs, Hmiss.
    + unfold directory in *. by rewrite Hs, He, IH.
Qed.
End resolution_more.

Definition room (members : list string) : @object (gmap string string) :=
  {| skype := Some alice_session;
     fields := {["chatId" := VStr "19:room"; "memberIds" := VList (VStr <$> members)]} |}.

Lemma wrapper_chat_last_witness :
  wrapper ["user"] ["owner"] [] ["owner"] ∅ !! "owner" = Some (ChatObj, "owner" ++ "Id").
Proof.
  apply (wrapper_chat_last ["user"] ["owner"] [] ["owner"] ∅ "owner"). set_solver.
Defined.

Lemma chat_accessor_lookup_witness :
  (∀ e, dict_getitem (chats alice_session) (VStr "19:room") = Return e →
        read dict_getitem (wrapper ["chat"] [] [] [] ∅) (room []) "chat"
        = Return (Resolved e)) ∧
  (∀ miss, dict_getitem (chats alice_session) (VStr "19:room") = Raise miss →
           read dict_getitem (wrapper ["chat"] [] [] [] ∅) (room []) "chat"
           = Raise miss).
Proof.
  apply (chat_accessor_lookup dict_getitem (wrapper ["chat"] [] [] [] ∅)
           (room []) "chat" "chatId" alice_session (VStr "19:room")).
  - vm_compute. reflexivity.
  - reflexivity.
  - vm_compute. reflexivity.
Defined.

Lemma users_accessor_in_order_witness :
  read dict_getitem (wrapper [] [] ["member"] [] ∅) (room ["alice"]) "members"
    = Return (Generator [VStr "alice"]) ∧
  drain dict_getitem (room ["alice"]) [VStr "alice"] = (["<SkypeUser alice>"], None).
Proof.
  apply (users_accessor_in_order dict_getitem (wrapper [] [] ["member"] [] ∅)
           (room ["alice"]) "members" "memberIds" alice_session
           (VList [VStr "alice"]) [VStr "alice"] ["<SkypeUser alice>"]).
  - vm_compute. reflexivity.
  - reflexivity.
  - vm_compute. reflexivity.
  - reflexivity.
  - repeat constructor.
Defined.

Lemma users_accessor_first_miss_witness :
  read dict_getitem (wrapper [] [] ["member"] [] ∅) (room ["alice"; "bob"; "carol"]) "members"
    = Return (Generator ([VStr "alice"] ++ VStr "bob" :: [VStr "carol"])%list) ∧
  drain dict_getitem (room ["alice"; "bob"; "carol"])
    ([VStr "alice"] ++ VStr "bob" :: [VStr "carol"])%list
    = (["<SkypeUser alice>"], Some (KeyError (VStr "bob"))).
Proof.
  apply (users_accessor_first_miss dict_getitem (wrapper [] [] ["member"] [] ∅)
           (room ["alice"; "bob"; "carol"]) "members" "memberIds" alice_session
           (VList [VStr "alice"; VStr "bob"; VStr "carol"])
           [VStr "alice"] (VStr "bob") [VStr "carol"] ["<SkypeUser alice>"]
           (KeyError (VStr "bob"))).
  - vm_compute. reflexivity.
  - reflexivity.
  - vm_compute. reflexivity.
  - reflexivity.
  - repeat constructor.
  - reflexivity.
Defined.

End Resolver.

(** ** The memoizing cache: [cacheResult] *)

Module Cache.
Import Repr.

(** The keyword arguments of a call: the items of the [kwargs] dictionary in
    its iteration order.  A dictionary iterates in insertion order (Python
    3.7, CPython 3.6), so this is the order the keywords were passed in. *)
Definition kwargs : Type := list (string * pyval).

(** [key = args + (str(kwargs),)] *)
Definition make_key (args : list pyval) (kw : kwargs) : list pyval :=
  args ++ [VStr (str_dict kw)].

(** The closure of one decorated function: the [cache] dictionary, and the
    log of the calls made to the underlying function. *)
Record state : Type := {
  cache : gmap (list pyval) pyval;
  calls : list (list pyval * kwargs);
}.

(** [cache = {}] *)
Definition fresh : state := {| cache := ∅; calls := [] |}.

Section cacheResult.
Local Open Scope list_scope.

(** The decorated function, pure and total. *)
Variable fn : list pyval → kwargs → pyval.

(** The [wrapper] closure, called with positional [args] and keywords
    [kw].  [key not in cache] hashes the key, which raises on a tuple that
    holds a list. *)
Definition wrapper (args : list pyval) (kw : kwargs) (st : state)
    : result pyval * state :=
  let key := make_key args kw in
  if negb (forallb isinstance_Hashable key) then
    (Return (fn args kw),
     {| cache := cache st; calls := calls st ++ [(args, kw)] |})
  else if negb (forallb hashable key) then
    (Raise (TypeError "unhashable type: 'list'"), st)
  else
    match cache st !! key with
    | Some v => (Return v, st)
    | None =>
        let v := fn args kw in
        (Return v,
         {| cache := <[key := v]> (cache st);
            calls := calls st ++ [(args, kw)] |})
    end.

(** A sequence of calls to the wrapper, results dropped. *)
Definition run (cs : list (list pyval * kwargs)) (st : state) : state :=
  foldl (λ st c, (wrapper c.1 c.2 st).2) st cs.

Lemma key_hashable args kw :
  forallb hashable args = true → forallb hashable (make_key args kw) = true.
Proof.
  intros H. unfold make_key. rewrite forallb_app, H. reflexivity.
Qed.

Lemma hashable_instance v : hashable v = true → isinstance_Hashable v = true.
Proof. by destruct v. Qed.

Lemma key_instances args kw :
  forallb hashable args = true →
  forallb isinstance_Hashable (make_key args kw) = true.
Proof.
  intros H%(key_hashable args kw). rewrite forallb_forall in *.
  intros v Hv. by apply hashable_instance, H.
Qed.

(** The wrapper only ever adds entries. *)
Lemma wrapper_keeps args kw st k v :
  cache st !! k = Some v → cache (wrapper args kw st).2 !! k = Some v.
Proof.
  intros Hk. unfold wrapper.
  destruct (negb (forallb isinstance_Hashable _)); [done|].
  destruct (negb (forallb hashable _)); [done|].
  destruct (cache st !! make_key args kw) eqn:Hc; [done|]. simpl.
  rewrite lookup_insert_ne; [done|]. intros <-. congruence.
Qed.

Lemma run_keeps cs st k v :
  cache st !! k = Some v → cache (run cs st) !! k = Some v.
Proof.
  revert st. induction cs as [|c cs IH]; intros st Hk; [done|].
  apply IH. by apply wrapper_keeps.
Qed.

Lemma wrapper_hit args kw st v :
  forallb hashable args = true →
  cache st !! make_key args kw = Some v →
  wrapper args kw st = (Return v, st).
Proof.
  intros Hh Hc. unfold wrapper.
  by rewrite (key_instances _ _ Hh), (key_hashable _ _ Hh), Hc.
Qed.

Lemma wrapper_miss args kw st :
  forallb hashable args = true →
  cache st !! make_key args kw = None →
  wrapper args kw st =
    (Return (fn args kw),
     {| cache := <[make_key args kw := fn args kw]> (cache st);
        calls := calls st ++ [(args, kw)] |}).
Proof.
  intros Hh Hc. unfold wrapper.
  by rewrite (key_instances _ _ Hh), (key_hashable _ _ Hh), Hc.
Qed.

(** After a call with hashable arguments the key is in the cache, with the
    value the call returned. *)
Lemma wrapper_stores args kw st :
  forallb hashable args = true →
  ∃ v, (wrapper args kw st).1 = Return v ∧
       cache (wrapper args kw st).2 !! make_key args kw = Some v ∧
       (cache st !! make_key args kw = None →
          v = fn args kw ∧ calls (wrapper args kw st).2 = calls st ++ [(args, kw)]).
Proof.
  intros Hh. destruct (cache st !! make_key args kw) as [v|] eqn:Hc.
  - rewrite (wrapper_hit _ _ _ _ Hh Hc). by exists v.
  - rewrite (wrapper_miss _ _ _ Hh Hc). exists (fn args kw). simpl.
    by rewrite lookup_insert_eq.
Qed.

(** C3: two calls with the same hashable arguments return the same value,
    and the second one leaves the closure untouched, so the function is
    not invoked for it, whatever calls come in between; when the key is
    new the first call invokes the function once and stores its result;
    and every entry the cache held is still there, unchanged, at the end. *)
Theorem wrapper_memoizes args kw cs st :
  forallb hashable args = true →
  let first := wrapper args kw st in
  let later := run cs first.2 in
  let second := wrapper args kw later in
  ∃ v, first.1 = Return v ∧ second.1 = Return v ∧
       second.2 = later ∧
       (cache st !! make_key args kw = None →
          v = fn args kw ∧ calls first.2 = calls st ++ [(args, kw)]) ∧
       (∀ k v', cache st !! k = Some v' → cache second.2 !! k = Some v').
Proof.
  intros Hh first later second.
  destruct (wrapper_stores args kw st Hh) as (v & Hv & Hc & Hnew).
  assert (cache later !! make_key args kw = Some v) as Hl by by apply run_keeps.
  assert (second = (Return v, later)) as Hsec by by apply wrapper_hit.
  exists v. rewrite Hsec. split_and!; [done..|].
  intros k v' Hk. by apply run_keeps, wrapper_keeps.
Qed.

(** C4 (amended): a call with a positional argument that is not an
    instance of [Hashable] bypasses the cache: the function is invoked and
    the cache is left as it was.  Keyword arguments never cause a bypass:
    when every positional argument is an instance of [Hashable] the call,
    whatever its keywords hold, either fails to hash a positional argument
    without invoking the function, or finds its key and returns the stored
    value without invoking the function, or invokes the function and
    stores the result under its key. *)
Theorem wrapper_bypass args kw st :
  ((∃ x, x ∈ args ∧ isinstance_Hashable x = false) →
   wrapper args kw st =
     (Return (fn args kw),
      {| cache := cache st; calls := calls st ++ [(args, kw)] |})) ∧
  (forallb isinstance_Hashable args = true →
   (forallb hashable args = false ∧
    wrapper args kw st = (Raise (TypeError "unhashable type: 'list'"), st)) ∨
   (∃ v, cache st !! make_key args kw = Some v ∧
         wrapper args kw st = (Return v, st)) ∨
   (cache st !! make_key args kw = None ∧
    wrapper args kw st =
      (Return (fn args kw),
       {| cache := <[make_key args kw := fn args kw]> (cache st);
          calls := calls st ++ [(args, kw)] |}))).
Proof.
  split.
  - intros (x & Hx & Hnh). unfold wrapper.
    assert (forallb isinstance_Hashable (make_key args kw) = false) as ->; [|done].
    apply not_true_is_false. rewrite forallb_forall. intros Hall.
    specialize (Hall x). rewrite Hnh in Hall.
    assert (false = true) by (apply Hall, list_elem_of_In; unfold make_key; set_solver).
    done.
  - intros Hinst. unfold wrapper.
    assert (forallb isinstance_Hashable (make_key args kw) = true) as ->.
    { unfold make_key. by rewrite forallb_app, Hinst. }
    assert (forallb hashable (make_key args kw) = forallb hashable args) as ->.
    { unfold make_key. rewrite forallb_app. simpl. by rewrite !andb_true_r. }
    destruct (forallb hashable args); simpl; [|by left].
    right. destruct (cache st !! make_key args kw) as [v|]; [left|right]; eauto.
Qed.

(** C5 (amended): two calls with the same hashable positional arguments
    and keyword arguments of the same [str(kwargs)], as when the same
    keywords come in the same order, have the same key, and the second
    call returns the stored value without invoking the function. *)
Theorem wrapper_same_key args kw1 kw2 st :
  forallb hashable args = true →
  str_dict kw1 = str_dict kw2 →
  make_key args kw1 = make_key args kw2 ∧
  let first := wrapper args kw1 st in
  ∃ v, first.1 = Return v ∧ wrapper args kw2 first.2 = (Return v, first.2).
Proof.
  intros Hh Hstr.
  assert (make_key args kw1 = make_key args kw2) as Hkey
    by (unfold make_key; by rewrite Hstr).
  split; [done|]. intros first.
  destruct (wrapper_stores args kw1 st Hh) as (v & Hv & Hc & _).
  exists v. split; [done|]. apply wrapper_hit; [done|]. by rewrite <- Hkey.
Qed.
End cacheResult.

(** *** Concrete calls *)

Local Open Scope list_scope.

(** A function that counts its arguments. *)
Definition count_args (args : list pyval) (kw : kwargs) : pyval :=
  VInt (Z.of_nat (length args + length kw)).

Example key_of_call :
  make_key [VInt 1; VStr "a"] [("x", VList [VInt 1; VInt 2]); ("y", VNone)]
  = [VInt 1; VStr "a"; VStr "{'x': [1, 2], 'y': None}"].
Proof. by vm_compute. Qed.

(** A tuple is an instance of [Hashable] even when it holds a list; the key
    then fails to hash. *)
Example tuple_of_list :
  (wrapper count_args [VTuple [VList []]] [] fresh).1
  = Raise (TypeError "unhashable type: 'list'").
Proof. by vm_compute. Qed.

Lemma wrapper_memoizes_witness :
  let first := wrapper count_args [VInt 1; VStr "a"] [("x", VInt 2)] fresh in
  let later := run count_args [([VList []], []); ([VInt 5], [])] first.2 in
  let second := wrapper count_args [VInt 1; VStr "a"] [("x", VInt 2)] later in
  ∃ v, first.1 = Return v ∧ second.1 = Return v ∧
       second.2 = later ∧
       (cache fresh !! make_key [VInt 1; VStr "a"] [("x", VInt 2)] = None →
          v = count_args [VInt 1; VStr "a"] [("x", VInt 2)] ∧
          calls first.2 = calls fresh ++ [([VInt 1; VStr "a"], [("x", VInt 2)])]) ∧
       (∀ k v', cache fresh !! k = Some v' → cache second.2 !! k = Some v').
Proof.
  apply (wrapper_memoizes count_args [VInt 1; VStr "a"] [("x", VInt 2)]
           [([VList []], []); ([VInt 5], [])] fresh).
  reflexivity.
Defined.

(** C4, as stated, fails for keyword arguments: a list passed by keyword
    enters the key through [str(kwargs)] only, the call is cached, and a
    second such call does not invoke the function. *)
Lemma wrapper_caches_list_keyword :
  let kw : kwargs := [("x", VList [VInt 1])] in
  let first := wrapper count_args [] kw fresh in
  let second := wrapper count_args [] kw first.2 in
  hashable (VList [VInt 1]) = false ∧
  cache first.2 !! [VStr "{'x': [1]}"] = Some (VInt 1) ∧
  second.1 = Return (VInt 1) ∧
  calls second.2 = [([], kw)].
Proof. intros kw first second. split_and!; vm_compute; reflexivity. Qed.

Lemma wrapper_bypass_witness :
  (wrapper count_args [VList [VInt 1]] [] fresh =
     (Return (count_args [VList [VInt 1]] []),
      {| cache := cache fresh; calls := calls fresh ++ [([VList [VInt 1]], [])] |})) ∧
  ((forallb hashable [VInt 1] = false ∧
    wrapper count_args [VInt 1] [("x", VList [VInt 1])] fresh
    = (Raise (TypeError "unhashable type: 'list'"), fresh)) ∨
   (∃ v, cache fresh !! make_key [VInt 1] [("x", VList [VInt 1])] = Some v ∧
         wrapper count_args [VInt 1] [("x", VList [VInt 1])] fresh
         = (Return v, fresh)) ∨
   (cache fresh !! make_key [VInt 1] [("x", VList [VInt 1])] = None ∧
    wrapper count_args [VInt 1] [("x", VList [VInt 1])] fresh =
      (Return (count_args [VInt 1] [("x", VList [VInt 1])]),
       {| cache := <[make_key [VInt 1] [("x", VList [VInt 1])]
                      := count_args [VInt 1] [("x", VList [VInt 1])]]> (cache fresh);
          calls := calls fresh ++ [([VInt 1], [("x", VList [VInt 1])])] |}))).
Proof.
  split.
  - apply (proj1 (wrapper_bypass count_args [VList [VInt 1]] [] fresh)).
    exists (VList [VInt 1]). split; [set_solver|reflexivity].
  - apply (proj2 (wrapper_bypass count_args [VInt 1] [("x", VList [VInt 1])] fresh)).
    reflexivity.
Defined.

(** C5, as stated, fails: the same keywords in another order give another
    [str(kwargs)], hence another key, and the function is invoked again. *)
Lemma wrapper_keyword_order :
  let kw1 : kwargs := [("a", VInt 1); ("b", VInt 2)] in
  let kw2 : kwargs := [("b", VInt 2); ("a", VInt 1)] in
  (list_to_map kw1 : gmap string pyval) = list_to_map kw2 ∧
  make_key [] kw1 ≠ make_key [] kw2 ∧
  calls (wrapper count_args [] kw2 (wrapper count_args [] kw1 fresh).2).2
    = [([], kw1); ([], kw2)].
Proof.
  intros kw1 kw2. split_and!.
  - apply map_eq. intros k. unfold kw1, kw2. simpl.
    destruct (decide (k = "a")) as [->|]; [done|].
    destruct (decide (k = "b")) as [->|]; [done|].
    by rewrite !lookup_insert_ne.
  - by vm_compute.
  - by vm_compute.
Qed.

Lemma wrapper_same_key_witness :
  make_key [VInt 1] [("a", VInt 1); ("b", VInt 2)]
    = make_key [VInt 1] [("a", VInt 1); ("b", VInt 2)] ∧
  let first := wrapper count_args [VInt 1] [("a", VInt 1); ("b", VInt 2)] fresh in
  ∃ v, first.1 = Return v ∧
       wrapper count_args [VInt 1] [("a", VInt 1); ("b", VInt 2)] first.2
       = (Return v, first.2).
Proof.
  apply (wrapper_same_key count_args [VInt 1] [("a", VInt 1); ("b", VInt 2)]
           [("a", VInt 1); ("b", VInt 2)] fresh); reflexivity.
Defined.

(** *** What the cache holds, and what the wrapper returns *)

Section cacheResult_more.
Local Open Scope nat_scope.
Local Open Scope list_scope.
Variable fn : list pyval → kwargs → pyval.

(** X9: a positional argument that is an instance of [Hashable] but does
    not hash, a tuple holding a list, passes the [isinstance] test and makes
    the cache lookup raise: the function is not invoked and nothing is
    stored. *)
Theorem wrapper_unhashable_key args kw st :
  forallb isinstance_Hashable args = true →
  forallb hashable args = false →
  wrapper fn args kw st = (Raise (TypeError "unhashable type: 'list'"), st).
Proof.
  intros Hinst Hhash. unfold wrapper, make_key.
  by rewrite !forallb_app, Hinst, Hhash.
Qed.

Lemma wrapper_entries (P : list pyval → pyval → Prop) args kw st :
  (∀ key v, cache st !! key = Some v → P key v) →
  P (make_key args kw) (fn args kw) →
  ∀ key v, cache (wrapper fn args kw st).2 !! key = Some v → P key v.
Proof.
  intros Hst Hnew key v. unfold wrapper.
  destruct (negb (forallb isinstance_Hashable _)); [apply Hst|].
  destruct (negb (forallb hashable _)); [apply Hst|].
  destruct (cache st !! make_key args kw) eqn:Hc; [apply Hst|]. simpl.
  destruct (decide (make_key args kw = key)) as [<-|Hne].
  - rewrite lookup_insert_eq. by intros [= <-].
  - rewrite lookup_insert_ne by done. apply Hst.
Qed.

Lemma run_entries (P : list pyval → pyval → Prop) cs st :
  (∀ key v, cache st !! key = Some v → P key v) →
  (∀ c, c ∈ cs → P (make_key c.1 c.2) (fn c.1 c.2)) →
  ∀ key v, cache (run fn cs st) !! key = Some v → P key v.
Proof.
  revert st. induction cs as [|c cs IH]; intros st Hst Hcs; [done|].
  simpl. apply IH.
  - apply wrapper_entries; [done|]. apply Hcs. set_solver.
  - intros c' Hc'. apply Hcs. set_solver.
Qed.

Lemma run_fresh_entries (P : list pyval → pyval → Prop) cs :
  (∀ c, c ∈ cs → P (make_key c.1 c.2) (fn c.1 c.2)) →
  ∀ key v, cache (run fn cs fresh) !! key = Some v → P key v.
Proof.
  intros Hcs. apply run_entries; [|done].
  intros k w. simpl. by rewrite lookup_empty.
Qed.

(** X10: every entry of the cache of a decorated function is the key of one
    of the calls made so far, with the value the function has on that
    call. *)
Theorem cache_holds_results cs key v :
  cache (run fn cs fresh) !! key = Some v →
  ∃ args kw, (args, kw) ∈ cs ∧ key = make_key args kw ∧ v = fn args kw.
Proof.
  apply (run_fresh_entries (λ key v, ∃ args kw,
           (args, kw) ∈ cs ∧ key = make_key args kw ∧ v = fn args kw)).
  intros [args kw] Hc. by exists args, kw.
Qed.

Lemma wrapper_bounds args kw st :
  size (cache st) ≤ length (calls st) →
  size (cache (wrapper fn args kw st).2) ≤ length (calls (wrapper fn args kw st).2) ∧
  length (calls (wrapper fn args kw st).2) ≤ S (length (calls st)).
Proof.
  intros Hst. unfold wrapper.
  destruct (negb (forallb isinstance_Hashable _)).
  { simpl. rewrite length_app. simpl. lia. }
  destruct (negb (forallb hashable _)); [simpl; lia|].
  destruct (cache st !! make_key args kw) eqn:Hc; [simpl; lia|]. simpl.
  rewrite map_size_insert_None by done. rewrite length_app. simpl. lia.
Qed.

(** X12: the function is invoked at most once per call of the wrapper, and
    the cache never holds more entries than invocations were made. *)
Theorem cache_bounded cs :
  size (cache (run fn cs fresh)) ≤ length (calls (run fn cs fresh)) ∧
  length (calls (run fn cs fresh)) ≤ length cs.
Proof.
  assert (∀ st, size (cache st) ≤ length (calls st) →
            size (cache (run fn cs st)) ≤ length (calls (run fn cs st)) ∧
            length (calls (run fn cs st)) ≤ length (calls st) + length cs) as Hgen.
  { induction cs as [|c cs IH]; intros st Hst; simpl; [lia|].
    destruct (wrapper_bounds c.1 c.2 st Hst) as [H1 H2].
    destruct (IH _ H1) as [H3 H4]. lia. }
  destruct (Hgen fresh) as [H1 H2]; [simpl; by rewrite map_size_empty|].
  simpl in H2. lia.
Qed.
End cacheResult_more.

Lemma wrapper_unhashable_key_witness :
  wrapper count_args [VInt 1; VTuple [VStr "a"; VList []]] [] fresh
  = (Raise (TypeError "unhashable type: 'list'"), fresh).
Proof.
  apply (wrapper_unhashable_key count_args [VInt 1; VTuple [VStr "a"; VList []]] [] fresh);
    reflexivity.
Defined.

Lemma cache_holds_results_witness :
  ∃ args kw,
    (args, kw) ∈ [([VInt 1], [("a", VInt 2)]); ([VInt 1], [("a", VInt 2)])]
    ∧ [VInt 1; VStr "{'a': 2}"] = make_key args kw
    ∧ VInt 2 = count_args args kw.
Proof.
  apply (cache_holds_results count_args
           [([VInt 1], [("a", VInt 2)]); ([VInt 1], [("a", VInt 2)])]
           [VInt 1; VStr "{'a': 2}"] (VInt 2)).
  vm_compute. reflexivity.
Defined.

End Cache.

(** ** The paginated exhaustion iterator: [exhaust] *)

Module Exhaust.

(** What the generator does, in order: it calls the fetch function and gets
    a page, or it yields an item. *)
Inductive step : Type :=
  | Fetch (page : pyval)
  | Yield (item : pyval).

(** How the generator ends: it returns (the consumer sees [StopIteration]),
    or an exception leaves it. *)
Inductive ending : Type :=
  | Stop
  | Raised (e : exn).

Definition yielded (steps : list step) : list pyval :=
  omap (λ s, match s with Yield x => Some x | Fetch _ => None end) steps.

Section exhaust.
Local Open Scope list_scope.

(** The fetch function with its arguments applied; [St] is the state it
    advances from one call to the next. *)
Context {St : Type}.
Variable fn : St → pyval * St.
Variable transform : option (pyval → pyval).

(** [transform(iterRes) if transform else iterRes], iterated. *)
Definition page_items (iterRes : pyval) : result (list pyval) :=
  py_iter (match transform with
           | Some f => f iterRes
           | None => iterRes
           end).

(** The [while True] loop, run for at most [fuel] fetches; [None] when the
    fuel runs out before the generator ends. *)
Fixpoint exhaust (fuel : nat) (st : St) : option (list step * ending * St) :=
  match fuel with
  | 0 => None
  | S fuel' =>
      let (iterRes, st') := fn st in
      if truthy iterRes then
        match page_items iterRes with
        | Raise e => Some ([Fetch iterRes], Raised e, st')
        | Return items =>
            match exhaust fuel' st' with
            | Some (steps, e, st'') =>
                Some (Fetch iterRes :: (Yield <$> items) ++ steps, e, st'')
            | None => None
            end
        end
      else Some ([Fetch iterRes], Stop, st')
  end.

(** [fetch_run st pages st']: from state [st], successive calls of the
    fetch function return [pages] and leave the state [st']. *)
Inductive fetch_run : St → list pyval → St → Prop :=
  | fetch_nil st : fetch_run st [] st
  | fetch_cons st p st1 ps st' :
      fn st = (p, st1) → fetch_run st1 ps st' → fetch_run st (p :: ps) st'.

Lemma yielded_app s1 s2 : yielded (s1 ++ s2) = yielded s1 ++ yielded s2.
Proof. apply omap_app. Qed.

Lemma yielded_Yield items : yielded (Yield <$> items) = items.
Proof.
  induction items as [|x items IH]; [done|].
  change (x :: yielded (Yield <$> items) = x :: items). by rewrite IH.
Qed.

(** C7: when the fetch function returns the truthy pages [pages] and then
    a falsy page, the generator, given fuel for those fetches, ends by
    returning after that last fetch, and what it has yielded is the items
    of the pages, page after page, in the order of each page; the items of
    a page are those of iterating what the transform makes of it when
    there is a transform, and those of iterating the page itself when
    there is none. *)
Theorem exhaust_pages st pages itemss st1 last st2 fuel :
  fetch_run st pages st1 →
  Forall (λ p, truthy p = true) pages →
  Forall2 (λ p items,
             py_iter match transform with
                     | Some f => f p
                     | None => p
                     end = Return items) pages itemss →
  fn st1 = (last, st2) →
  truthy last = false →
  length pages < fuel →
  ∃ steps,
    exhaust fuel st = Some (steps, Stop, st2) ∧
    yielded steps = concat itemss.
Proof.
  intros Hrun. revert itemss fuel.
  induction Hrun as [st|st p st' ps st1 Hfn Hrun IH];
    intros itemss fuel Htruthy Hitems Hlast Hfalsy Hfuel.
  - apply Forall2_nil_inv_l in Hitems as ->.
    destruct fuel as [|fuel]; [simpl in Hfuel; lia|].
    exists [Fetch last]. simpl. by rewrite Hlast, Hfalsy.
  - apply Forall2_cons_inv_l in Hitems as (items & rest & Hp & Hrest & ->).
    apply Forall_cons_1 in Htruthy as [Hp_truthy Htruthy].
    destruct fuel as [|fuel]; [simpl in Hfuel; lia|].
    destruct (IH rest fuel) as (steps & Hex & Hy); [done..|simpl in Hfuel; lia|].
    exists (Fetch p :: (Yield <$> items) ++ steps). split.
    + simpl. unfold page_items. by rewrite Hfn, Hp_truthy, Hp, Hex.
    + change (yielded ((Yield <$> items) ++ steps) = items ++ concat rest).
      by rewrite yielded_app, yielded_Yield, Hy.
Qed.
End exhaust.

(** *** A fetch function over a queue of pages *)

(** The state is the pages still to come; once they are gone every fetch
    returns the empty list. *)
Definition pop_page (queue : list pyval) : pyval * list pyval :=
  match queue with
  | [] => (VList [], [])
  | p :: queue' => (p, queue')
  end.

Definition three_pages : list pyval :=
  [VList [VInt 1; VInt 2]; VList [VInt 3]; VList []].

Example exhaust_123 :
  exhaust pop_page None 3 three_pages
  = Some ([Fetch (VList [VInt 1; VInt 2]); Yield (VInt 1); Yield (VInt 2);
           Fetch (VList [VInt 3]); Yield (VInt 3); Fetch (VList [])], Stop, []).
Proof. reflexivity. Qed.

(** A truthy page that cannot be iterated ends the generator with an error. *)
Example exhaust_int_page :
  exhaust pop_page None 3 [VInt 5; VList []]
  = Some ([Fetch (VInt 5)], Raised (TypeError "'int' object is not iterable"), [VList []]).
Proof. reflexivity. Qed.

(** A transform for pages that carry their items behind a sync state: it
    gives the second component of a pair, and [None] for anything else. *)
Definition page_body (p : pyval) : pyval :=
  match p with
  | VTuple [_; body] => body
  | _ => VNone
  end.

Definition synced_pages : list pyval :=
  [VTuple [VStr "s1"; VList [VInt 1; VInt 2]];
   VTuple [VStr "s2"; VList [VInt 3]];
   VList []].

(** With the transform the items are those of the transformed pages; the
    pages themselves would give the sync states as well. *)
Example exhaust_synced :
  ((λ r, yielded r.1.1) <$> exhaust pop_page (Some page_body) 3 synced_pages,
   (λ r, yielded r.1.1) <$> exhaust pop_page None 3 synced_pages)
  = (Some [VInt 1; VInt 2; VInt 3],
     Some [VStr "s1"; VList [VInt 1; VInt 2]; VStr "s2"; VList [VInt 3]]).
Proof. reflexivity. Qed.

Lemma exhaust_pages_witness :
  ∃ steps,
    exhaust pop_page (Some page_body) 3 synced_pages = Some (steps, Stop, []) ∧
    yielded steps = concat [[VInt 1; VInt 2]; [VInt 3]].
Proof.
  apply (exhaust_pages pop_page (Some page_body) synced_pages
           [VTuple [VStr "s1"; VList [VInt 1; VInt 2]];
            VTuple [VStr "s2"; VList [VInt 3]]]
           [[VInt 1; VInt 2]; [VInt 3]]
           [VList []] (VList []) [] 3).
  - apply fetch_cons with (st1 := [VTuple [VStr "s2"; VList [VInt 3]]; VList []]);
      [reflexivity|].
    apply fetch_cons with (st1 := [VList []]); [reflexivity|]. apply fetch_nil.
  - repeat constructor.
  - repeat constructor.
  - reflexivity.
  - reflexivity.
  - simpl. lia.
Defined.

(** *** The order of fetches and yields, and the ways the generator ends *)

Section exhaust_more.
Local Open Scope nat_scope.
Local Open Scope list_scope.
Context {St : Type}.
Variable fn : St → pyval * St.
Variable transform : option (pyval → pyval).

(** The steps of draining the given pages: each page is fetched, then its
    items are yielded, then the next page is fetched. *)
Fixpoint page_steps (pages : list pyval) (itemss : list (list pyval)) : list step :=
  match pages, itemss with
  | p :: pages', items :: itemss' =>
      Fetch p :: (Yield <$> items) ++ page_steps pages' itemss'
  | _, _ => []
  end.

(** X13: when the fetch function returns truthy pages and then a falsy one,
    the generator fetches each page once, yields the items of a page before it
    fetches the next, and stops right after fetching the falsy page: it
    makes one fetch more than there are truthy pages and none after. *)
Theorem exhaust_steps st pages itemss st1 last st2 fuel :
  fetch_run fn st pages st1 →
  Forall (λ p, truthy p = true) pages →
  Forall2 (λ p items, page_items transform p = Return items) pages itemss →
  fn st1 = (last, st2) →
  truthy last = false →
  length pages < fuel →
  exhaust fn transform fuel st
  = Some (page_steps pages itemss ++ [Fetch last], Stop, st2).
Proof.
  intros Hrun. revert itemss fuel.
  induction Hrun as [st|st p st' ps st1 Hfn Hrun IH];
    intros itemss fuel Htruthy Hitems Hlast Hfalsy Hfuel.
  - apply Forall2_nil_inv_l in Hitems as ->.
    destruct fuel as [|fuel]; [simpl in Hfuel; lia|].
    simpl. by rewrite Hlast, Hfalsy.
  - apply Forall2_cons_inv_l in Hitems as (items & rest & Hp & Hrest & ->).
    apply Forall_cons_1 in Htruthy as [Hp_truthy Htruthy].
    destruct fuel as [|fuel]; [simpl in Hfuel; lia|].
    simpl. rewrite Hfn, Hp_truthy, Hp.
    rewrite (IH rest fuel) by (done || (simpl in Hfuel; lia)).
    by rewrite <- app_assoc.
Qed.

(** X14: a truthy page that cannot be iterated ends the generator with the
    error of iterating it, after the items of the pages before it have been
    yielded; no further page is fetched. *)
Theorem exhaust_page_not_iterable st pages itemss st1 bad st2 err fuel :
  fetch_run fn st pages st1 →
  Forall (λ p, truthy p = true) pages →
  Forall2 (λ p items, page_items transform p = Return items) pages itemss →
  fn st1 = (bad, st2) →
  truthy bad = true →
  page_items transform bad = Raise err →
  length pages < fuel →
  exhaust fn transform fuel st
  = Some (page_steps pages itemss ++ [Fetch bad], Raised err, st2).
Proof.
  intros Hrun. revert itemss fuel.
  induction Hrun as [st|st p st' ps st1 Hfn Hrun IH];
    intros itemss fuel Htruthy Hitems Hbad Hbad_truthy Herr Hfuel.
  - apply Forall2_nil_inv_l in Hitems as ->.
    destruct fuel as [|fuel]; [simpl in Hfuel; lia|].
    simpl. by rewrite Hbad, Hbad_truthy, Herr.
  - apply Forall2_cons_inv_l in Hitems as (items & rest & Hp & Hrest & ->).
    apply Forall_cons_1 in Htruthy as [Hp_truthy Htruthy].
    destruct fuel as [|fuel]; [simpl in Hfuel; lia|].
    simpl. rewrite Hfn, Hp_truthy, Hp.
    rewrite (IH rest fuel) by (done || (simpl in Hfuel; lia)).
    by rewrite <- app_assoc.
Qed.

(** X15: a fetch function whose pages are always truthy and iterable never
    lets the generator end: no number of fetches is enough. *)
Theorem exhaust_never_ends :
  (∀ st, truthy (fn st).1 = true ∧ ∃ items, page_items transform (fn st).1 = Return items) →
  ∀ fuel st, exhaust fn transform fuel st = None.
Proof.
  intros Hfn fuel. induction fuel as [|fuel IH]; intros st; [done|].
  simpl. destruct (Hfn st) as [Ht [items Hi]].
  destruct (fn st) as [p st']. simpl in *. by rewrite Ht, Hi, IH.
Qed.

(** Once the generator has ended within some number of fetches, allowing
    more changes nothing. *)
Lemma exhaust_fuel_irrelevant fuel fuel' st r :
  exhaust fn transform fuel st = Some r →
  fuel ≤ fuel' →
  exhaust fn transform fuel' st = Some r.
Proof.
  revert fuel' st r. induction fuel as [|fuel IH]; intros fuel' st r Hr Hle; [done|].
  destruct fuel' as [|fuel']; [lia|]. simpl in *.
  destruct (fn st) as [p st']. destruct (truthy p); [|done].
  destruct (page_items transform p); [done|].
  destruct (exhaust fn transform fuel st') as [[[steps e] st'']|] eqn:Hrec; [|done].
  by rewrite (IH fuel' st' _ Hrec) by lia.
Qed.
End exhaust_more.

Lemma exhaust_steps_witness :
  exhaust pop_page None 5 three_pages
  = Some (page_steps [VList [VInt 1; VInt 2]; VList [VInt 3]] [[VInt 1; VInt 2]; [VInt 3]]
          ++ [Fetch (VList [])], Stop, [])%list.
Proof.
  apply (exhaust_steps pop_page None three_pages
           [VList [VInt 1; VInt 2]; VList [VInt 3]] [[VInt 1; VInt 2]; [VInt 3]]
           [VList []] (VList []) [] 5).
  - apply fetch_cons with (st1 := [VList [VInt 3]; VList []]); [reflexivity|].
    apply fetch_cons with (st1 := [VList []]); [reflexivity|]. apply fetch_nil.
  - repeat constructor.
  - repeat constructor.
  - reflexivity.
  - reflexivity.
  - simpl. lia.
Defined.

Lemma exhaust_page_not_iterable_witness :
  exhaust pop_page None 4 [VList [VInt 1]; VInt 7; VList [VInt 2]]
  = Some (page_steps [VList [VInt 1]] [[VInt 1]] ++ [Fetch (VInt 7)],
          Raised (TypeError "'int' object is not iterable"), [VList [VInt 2]])%list.
Proof.
  apply (exhaust_page_not_iterable pop_page None
           [VList [VInt 1]; VInt 7; VList [VInt 2]] [VList [VInt 1]] [[VInt 1]]
           [VInt 7; VList [VInt 2]] (VInt 7) [VList [VInt 2]]
           (TypeError "'int' object is not iterable") 4).
  - apply fetch_cons with (st1 := [VInt 7; VList [VInt 2]]); [reflexivity|].
    apply fetch_nil.
  - repeat constructor.
  - repeat constructor.
  - reflexivity.
  - reflexivity.
  - reflexivity.
  - simpl. lia.
Defined.

(** A fetch function that returns the same one-item page for ever. *)
Definition same_page (n : nat) : pyval * nat := (VList [VInt 0], S n).

Lemma exhaust_never_ends_witness :
  exhaust same_page None 50 0 = None.
Proof.
  apply (exhaust_never_ends same_page None).
  intros st. split; [reflexivity|]. by exists [VInt 0].
Defined.

End Exhaust.

(** ** Identifier extraction from locators: [userToId] and [chatToId] *)

Module Locators.
Import Repr IdentifierExtraction.

(** The regular expressions the two patterns are written in: literal text,
    [[class]+], [(r)?], concatenation and numbered groups. *)
Inductive regex : Type :=
  | Lit (s : string)
  | Plus (cls : ascii → bool)
  | Opt (r : regex)
  | Seq (r1 r2 : regex)
  | Group (n : nat) (r : regex).

(** The text of each group that took part in a match. *)
Abbreviation groups := (gmap nat string).

(** [strip_prefix l s]: what is left of [s] after the literal [l]. *)
Fixpoint strip_prefix (l s : string) : option string :=
  match l with
  | EmptyString => Some s
  | String c l' =>
      match s with
      | String d s' => if Ascii.eqb c d then strip_prefix l' s' else None
      | EmptyString => None
      end
  end.

(** The ways [[class]+] matches at the start of [s], as (matched text,
    rest): greedy, so the longest run comes first and the single character
    last. *)
Fixpoint plus_alts (cls : ascii → bool) (s : string) : list (string * string) :=
  match s with
  | String c s' =>
      if cls c
      then ((λ m, (String c m.1, m.2)) <$> plus_alts cls s') ++ [(String c "", s')]
      else []
  | EmptyString => []
  end.

(** The ways [r] matches at the start of [s], in the order a backtracking
    matcher tries them: (matched text, rest, groups). *)
Fixpoint alts (r : regex) (s : string) (g : groups)
    : list (string * string * groups) :=
  match r with
  | Lit l =>
      match strip_prefix l s with
      | Some rest => [(l, rest, g)]
      | None => []
      end
  | Plus cls => (λ m, (m.1, m.2, g)) <$> plus_alts cls s
  | Opt r' => alts r' s g ++ [(EmptyString, s, g)]
  | Seq r1 r2 =>
      alts r1 s g ≫= λ m1,
        (λ m2, (m1.1.1 ++ m2.1.1, m2.1.2, m2.2)) <$> alts r2 m1.1.2 m1.2
  | Group n r' => (λ m, (m.1.1, m.1.2, <[n := m.1.1]> m.2)) <$> alts r' s g
  end.

(** [re.search(r, s)]: the first way [r] matches at the leftmost position
    where it matches at all. *)
Fixpoint search (r : regex) (s : string) : option groups :=
  match head (alts r s ∅) with
  | Some m => Some m.2
  | None =>
      match s with
      | String _ s' => search r s'
      | EmptyString => None
      end
  end.

(** [match.group(n)]: [None] for a group that took no part. *)
Definition group (g : groups) (n : nat) : pyval :=
  match g !! n with
  | Some w => VStr w
  | None => VNone
  end.

Definition in_range (lo hi : nat) (c : ascii) : bool :=
  Nat.leb lo (nat_of_ascii c) && Nat.leb (nat_of_ascii c) hi.

(** [[0-9]] *)
Definition digit (c : ascii) : bool := in_range 48 57 c.

(** [[A-Za-z0-9\.,:_\-]] *)
Definition id_char (c : ascii) : bool :=
  in_range 65 90 c || in_range 97 122 c || in_range 48 57 c
  || Ascii.eqb c "." || Ascii.eqb c "," || Ascii.eqb c ":"
  || Ascii.eqb c "_" || Ascii.eqb c "-".

(** [users(/ME/contacts)?/[0-9]+:([A-Za-z0-9\.,:_\-]+)] *)
Definition user_pattern : regex :=
  Seq (Lit "users")
    (Seq (Opt (Group 1 (Lit "/ME/contacts")))
       (Seq (Lit "/")
          (Seq (Plus digit) (Seq (Lit ":") (Group 2 (Plus id_char)))))).

(** [conversations/([0-9]+:[A-Za-z0-9\.,:_\-]+(@thread\.skype)?)] *)
Definition chat_pattern : regex :=
  Seq (Lit "conversations/")
    (Group 1
       (Seq (Plus digit)
          (Seq (Lit ":")
             (Seq (Plus id_char) (Opt (Group 2 (Lit "@thread.skype"))))))).

(** [return match.group(2) if match else None] *)
Definition userToId (url : string) : pyval :=
  match search user_pattern url with
  | Some g => group g 2
  | None => VNone
  end.

(** [return match.group(1) if match else None] *)
Definition chatToId (url : string) : pyval :=
  match search chat_pattern url with
  | Some g => group g 1
  | None => VNone
  end.

(** Every character of [s] is in the class. *)
Fixpoint all_chars (cls : ascii → bool) (s : string) : bool :=
  match s with
  | EmptyString => true
  | String c s' => cls c && all_chars cls s'
  end.

(** [s] begins with a character of the class. *)
Definition starts (cls : ascii → bool) (s : string) : bool :=
  match s with
  | EmptyString => false
  | String c _ => cls c
  end.

(** The literal [l] does not start anywhere within [pre] in [pre ++ s]. *)
Fixpoint absent_before (l pre s : string) : bool :=
  match pre with
  | EmptyString => true
  | String _ pre' =>
      match strip_prefix l (pre ++ s) with
      | Some _ => false
      | None => absent_before l pre' s
      end
  end.

(** [occurs l s]: the literal [l] occurs somewhere in [s]. *)
Fixpoint occurs (l s : string) : bool :=
  match strip_prefix l s with
  | Some _ => true
  | None =>
      match s with
      | String _ s' => occurs l s'
      | EmptyString => false
      end
  end.

(** The optional group at the end of the conversation pattern:
    [(@thread\.skype)?] at the start of [post]. *)
Definition thread_suffix (post : string) : string :=
  match strip_prefix "@thread.skype" post with
  | Some _ => "@thread.skype"
  | None => ""
  end.

Example userToId_users : userToId "https://api/users/8:alice" = VStr "alice".
Proof. vm_compute. reflexivity. Qed.

Example userToId_contacts :
  userToId "https://api/users/ME/contacts/8:bob?view=full" = VStr "bob".
Proof. vm_compute. reflexivity. Qed.

Example userToId_live : userToId "users/8:live:joe_1,x/presence" = VStr "live:joe_1,x".
Proof. vm_compute. reflexivity. Qed.

Example userToId_no_prefix : userToId "https://api/users/alice" = VNone.
Proof. vm_compute. reflexivity. Qed.

Example chatToId_thread :
  chatToId "https://api/conversations/19:abc@thread.skype/messages"
  = VStr "19:abc@thread.skype".
Proof. vm_compute. reflexivity. Qed.

Example chatToId_one_to_one :
  chatToId "https://api/conversations/8:alice" = VStr "8:alice".
Proof. vm_compute. reflexivity. Qed.

(** *** What the patterns match *)

#[local] Arguments String.append : simpl nomatch.

Lemma append_nil_r s : s ++ "" = s.
Proof. induction s as [|c s IH]; simpl; [done|]. by rewrite IH. Qed.

Lemma append_assoc s1 s2 s3 : (s1 ++ s2) ++ s3 = s1 ++ s2 ++ s3.
Proof. induction s1 as [|c s1 IH]; simpl; [done|]. by rewrite IH. Qed.

Lemma strip_prefix_Some l s rest : strip_prefix l s = Some rest ↔ s = l ++ rest.
Proof.
  revert s. induction l as [|c l IH]; intros s; simpl.
  - split; congruence.
  - destruct s as [|d s]; [done|].
    destruct (Ascii.eqb_spec c d) as [->|Hne].
    + rewrite IH. split; congruence.
    + split; [done|]. congruence.
Qed.

Lemma plus_alts_nil cls s : plus_alts cls s = [] ↔ starts cls s = false.
Proof.
  destruct s as [|c s]; simpl; [done|].
  destruct (cls c); [|done]. split; [|done].
  intros H. by apply app_eq_nil in H as [_ ?].
Qed.

Lemma plus_alts_elem cls s w rest :
  (w, rest) ∈ plus_alts cls s → s = w ++ rest ∧ w ≠ "" ∧ all_chars cls w = true.
Proof.
  revert w rest. induction s as [|c s IH]; intros w rest; simpl; [set_solver|].
  destruct (cls c) eqn:Hc; [|set_solver].
  rewrite elem_of_app, list_elem_of_fmap, list_elem_of_singleton.
  intros [([w' rest'] & [= -> ->] & Hin)|[= -> ->]].
  - destruct (IH _ _ Hin) as (-> & _ & Hall). simpl. by rewrite Hc, Hall.
  - simpl. by rewrite Hc.
Qed.

Lemma plus_alts_head_inv cls s w rest :
  head (plus_alts cls s) = Some (w, rest) → starts cls rest = false.
Proof.
  revert w rest. induction s as [|c s IH]; intros w rest; simpl; [done|].
  destruct (cls c); [|done].
  destruct (plus_alts cls s) as [|[w' rest'] tl] eqn:Hs; simpl.
  - intros [= <- <-]. by apply plus_alts_nil.
  - intros [= <- <-]. by apply (IH w').
Qed.

Lemma plus_alts_head cls w rest :
  w ≠ "" → all_chars cls w = true → starts cls rest = false →
  head (plus_alts cls (w ++ rest)) = Some (w, rest).
Proof.
  intros Hne Hall Hrest. induction w as [|c w IH]; [done|].
  simpl in *. apply andb_prop in Hall as [Hc Hall]. rewrite Hc.
  destruct w as [|c' w].
  - simpl. apply plus_alts_nil in Hrest. by rewrite Hrest.
  - specialize (IH ltac:(done) Hall).
    destruct (plus_alts cls (String c' w ++ rest)) as [|m tl]; [done|].
    simpl in IH. injection IH as ->. done.
Qed.

Lemma alts_split r s g w rest g' : (w, rest, g') ∈ alts r s g → s = w ++ rest.
Proof.
  revert s g w rest g'. induction r as [l|cls|r IH|r1 IH1 r2 IH2|n r IH];
    intros s g w rest g'; simpl.
  - destruct (strip_prefix l s) as [r|] eqn:Hl; [|set_solver].
    rewrite list_elem_of_singleton. intros [= -> -> ->]. by apply strip_prefix_Some.
  - rewrite list_elem_of_fmap. intros ([w' rest'] & [= -> -> ->] & Hin).
    by apply plus_alts_elem in Hin as [? _].
  - rewrite elem_of_app, list_elem_of_singleton. intros [Hin|[= -> -> ->]]; [|done].
    by eapply IH.
  - rewrite list_elem_of_bind. intros ([[w1 rest1] g1] & Hin2 & Hin1).
    apply list_elem_of_fmap in Hin2 as ([[w2 rest2] g2] & [= -> -> ->] & Hin2).
    simpl in *. apply IH1 in Hin1 as ->. apply IH2 in Hin2 as ->.
    by rewrite append_assoc.
  - rewrite list_elem_of_fmap. intros ([[w' rest'] g''] & [= -> -> ->] & Hin).
    by eapply IH.
Qed.

Lemma head_bind {A B} (f : A → list B) (l : list A) (y : B) :
  head (l ≫= f) = Some y → ∃ x, x ∈ l ∧ head (f x) = Some y.
Proof.
  induction l as [|x l IH]; [done|]. rewrite bind_cons.
  destruct (f x) as [|z tl] eqn:Hx; simpl.
  - intros (x' & Hin & Hy)%IH. exists x'. split; [set_solver|done].
  - intros [= <-]. exists x. split; [set_solver|]. by rewrite Hx.
Qed.

Lemma head_bind_first {A B} (f : A → list B) (x : A) (l : list A) (y : B) :
  head (f x) = Some y → head ((x :: l) ≫= f) = Some y.
Proof.
  rewrite bind_cons. destruct (f x) as [|z tl]; [done|]. by simpl.
Qed.

Lemma alts_seq_inv r1 r2 s g m :
  head (alts (Seq r1 r2) s g) = Some m →
  ∃ m1 m2, m1 ∈ alts r1 s g ∧ head (alts r2 m1.1.2 m1.2) = Some m2 ∧
           m = (m1.1.1 ++ m2.1.1, m2.1.2, m2.2).
Proof.
  simpl. intros (m1 & Hin & Hh)%head_bind.
  destruct (alts r2 m1.1.2 m1.2) as [|m2 tl] eqn:H2; [done|].
  simpl in Hh. injection Hh as <-. exists m1, m2. by rewrite H2.
Qed.

Lemma alts_seq_head r1 r2 s g m1 tl m2 :
  alts r1 s g = m1 :: tl →
  head (alts r2 m1.1.2 m1.2) = Some m2 →
  head (alts (Seq r1 r2) s g) = Some (m1.1.1 ++ m2.1.1, m2.1.2, m2.2).
Proof.
  intros H1 H2. simpl. rewrite H1. apply head_bind_first.
  destruct (alts r2 m1.1.2 m1.2); [done|]. simpl in *. by injection H2 as ->.
Qed.

Lemma search_Some r s g :
  search r s = Some g →
  ∃ pre rest m, s = pre ++ rest ∧ head (alts r rest ∅) = Some m ∧ g = m.2.
Proof.
  induction s as [|c s IH]; simpl.
  - destruct (head (alts r "" ∅)) as [m|] eqn:Hm; [|done].
    intros [= <-]. by exists "", "", m.
  - destruct (head (alts r (String c s) ∅)) as [m|] eqn:Hm.
    + intros [= <-]. by exists "", (String c s), m.
    + intros (pre & rest & m & -> & Hh & ->)%IH. by exists (String c pre), rest, m.
Qed.

Lemma alts_seq_first r1 r2 s g w1 s1 g1 w2 s2 g2 :
  head (alts r1 s g) = Some (w1, s1, g1) →
  head (alts r2 s1 g1) = Some (w2, s2, g2) →
  head (alts (Seq r1 r2) s g) = Some (w1 ++ w2, s2, g2).
Proof.
  intros H1 H2. destruct (alts r1 s g) as [|m tl] eqn:E; [done|].
  simpl in H1. injection H1 as ->.
  by apply (alts_seq_head r1 r2 s g (w1, s1, g1) tl (w2, s2, g2)).
Qed.

Lemma lit_elem l s g w rest g' :
  (w, rest, g') ∈ alts (Lit l) s g → w = l ∧ g' = g ∧ s = l ++ rest.
Proof.
  simpl. destruct (strip_prefix l s) as [r|] eqn:Hl; [|set_solver].
  rewrite list_elem_of_singleton. intros [= -> -> ->]. by apply strip_prefix_Some in Hl.
Qed.

Lemma lit_head l rest g :
  head (alts (Lit l) (l ++ rest) g) = Some (l, rest, g).
Proof.
  simpl. by rewrite (proj2 (strip_prefix_Some l (l ++ rest) rest) eq_refl).
Qed.

Lemma plus_elem cls s g w rest g' :
  (w, rest, g') ∈ alts (Plus cls) s g →
  g' = g ∧ s = w ++ rest ∧ w ≠ "" ∧ all_chars cls w = true.
Proof.
  simpl. rewrite list_elem_of_fmap. intros ([w' rest'] & [= -> -> ->] & Hin).
  split; [done|]. by apply plus_alts_elem.
Qed.

Lemma plus_head cls w rest g :
  w ≠ "" → all_chars cls w = true → starts cls rest = false →
  head (alts (Plus cls) (w ++ rest) g) = Some (w, rest, g).
Proof.
  intros Hne Hall Hrest. simpl.
  pose proof (plus_alts_head cls w rest Hne Hall Hrest) as Hh.
  destruct (plus_alts cls (w ++ rest)) as [|m tl]; [done|].
  simpl in *. by injection Hh as ->.
Qed.

Lemma opt_group_lit_elem n l s g w rest g' :
  (w, rest, g') ∈ alts (Opt (Group n (Lit l))) s g →
  (w = l ∧ g' = <[n := l]> g ∧ s = l ++ rest) ∨ (w = "" ∧ g' = g ∧ s = rest).
Proof.
  cbn [alts]. rewrite elem_of_app, list_elem_of_fmap, list_elem_of_singleton.
  intros [([[w0 rest0] g0] & [= -> -> ->] & Hin)|[= -> -> ->]]; [left|by right].
  apply lit_elem in Hin as (-> & -> & ->). done.
Qed.

Lemma group_plus_head_inv n cls s g w rest g' :
  head (alts (Group n (Plus cls)) s g) = Some (w, rest, g') →
  g' = <[n := w]> g ∧ s = w ++ rest ∧ w ≠ "" ∧ all_chars cls w = true
  ∧ starts cls rest = false.
Proof.
  simpl. destruct (plus_alts cls s) as [|[w0 rest0] tl] eqn:Hp; [done|].
  simpl. intros [= <- <- <-]. split; [done|].
  assert ((w0, rest0) ∈ plus_alts cls s) as Hin by (rewrite Hp; set_solver).
  apply plus_alts_elem in Hin as (? & ? & ?).
  split_and!; [done..|]. apply (plus_alts_head_inv cls s w0). by rewrite Hp.
Qed.

Lemma group_head n r s g w rest g' :
  head (alts r s g) = Some (w, rest, g') →
  head (alts (Group n r) s g) = Some (w, rest, <[n := w]> g').
Proof. simpl. destruct (alts r s g); [done|]. simpl. by intros [= ->]. Qed.

Lemma group_head_inv n r s g m :
  head (alts (Group n r) s g) = Some m →
  ∃ m', head (alts r s g) = Some m' ∧ m = (m'.1.1, m'.1.2, <[n := m'.1.1]> m'.2).
Proof.
  simpl. destruct (alts r s g) as [|m' tl]; [done|]. simpl.
  intros [= <-]. by exists m'.
Qed.

Lemma digit_not_colon ds : all_chars digit ds = true → has_char ":" ds = false.
Proof.
  induction ds as [|c ds IH]; [done|]. simpl. intros [Hc Hds]%andb_prop.
  destruct (Ascii.eqb_spec c ":") as [->|_]; [done|]. by apply IH.
Qed.

Lemma search_skip l r pre s :
  absent_before l pre s = true →
  search (Seq (Lit l) r) (pre ++ s) = search (Seq (Lit l) r) s.
Proof.
  induction pre as [|c pre IH]; [done|]. intros Habs.
  cbn [absent_before] in Habs.
  destruct (strip_prefix l (String c pre ++ s)) eqn:Hl; [done|].
  change (String c pre ++ s) with (String c (pre ++ s)) in *.
  cbn [search alts]. rewrite Hl. simpl. by apply IH.
Qed.

Lemma search_here r s m :
  head (alts r s ∅) = Some m → search r s = Some m.2.
Proof. intros H. destruct s; simpl; by rewrite H. Qed.

Lemma user_pattern_match url g :
  search user_pattern url = Some g →
  ∃ pre mid ds id post,
    url = pre ++ "users" ++ mid ++ "/" ++ ds ++ ":" ++ id ++ post ∧
    g !! 2 = Some id ∧
    (mid = "" ∨ mid = "/ME/contacts") ∧
    ds ≠ "" ∧ all_chars digit ds = true ∧
    id ≠ "" ∧ all_chars id_char id = true ∧
    starts id_char post = false.
Proof.
  intros Hs.
  apply search_Some in Hs as (pre & rest & m & -> & Hm & ->).
  unfold user_pattern in Hm.
  apply alts_seq_inv in Hm as ([[w1 r1] g1] & m2 & H1 & Hm & ->); cbn [fst snd] in *.
  apply lit_elem in H1 as (-> & -> & ->).
  apply alts_seq_inv in Hm as ([[w2 r2] g2] & m3 & H2 & Hm & ->); cbn [fst snd] in *.
  apply alts_seq_inv in Hm as ([[w3 r3] g3] & m4 & H3 & Hm & ->); cbn [fst snd] in *.
  apply lit_elem in H3 as (-> & -> & ->).
  apply alts_seq_inv in Hm as ([[w4 r4] g4] & m5 & H4 & Hm & ->); cbn [fst snd] in *.
  apply plus_elem in H4 as (-> & -> & Hds & Hdigits).
  apply alts_seq_inv in Hm as ([[w5 r5] g5] & [[w6 r6] g6] & H5 & Hm & ->); cbn [fst snd] in *.
  apply lit_elem in H5 as (-> & -> & ->).
  apply group_plus_head_inv in Hm as (-> & -> & Hid & Hchars & Hpost).
  exists pre, w2, w4, w6, r6. rewrite lookup_insert_eq. split_and!; try done.
  - apply opt_group_lit_elem in H2 as [(-> & _ & ->)|(-> & _ & ->)]; done.
  - apply opt_group_lit_elem in H2 as [(-> & _ & ->)|(-> & _ & ->)]; auto.
Qed.

Lemma userToId_cases url :
  (userToId url = VNone)
  ∨ ∃ g id, search user_pattern url = Some g ∧ g !! 2 = Some id
            ∧ userToId url = VStr id.
Proof.
  unfold userToId, group. destruct (search user_pattern url) as [g|]; [|by left].
  destruct (g !! 2) as [id|] eqn:Hg; [|by left]. right. by exists g, id.
Qed.

(** X16: an identifier returned by [userToId] was read off the locator: the
    locator holds [users], then [/ME/contacts] or nothing, then [/], a
    non-empty run of digits, a colon and the identifier; the identifier is
    a non-empty run of the characters of the class, and the character after
    it, if any, is not one of them. *)
Theorem userToId_shape url id :
  userToId url = VStr id →
  ∃ pre mid ds post,
    url = pre ++ "users" ++ mid ++ "/" ++ ds ++ ":" ++ id ++ post ∧
    (mid = "" ∨ mid = "/ME/contacts") ∧
    ds ≠ "" ∧ all_chars digit ds = true ∧
    id ≠ "" ∧ all_chars id_char id = true ∧
    starts id_char post = false.
Proof.
  intros Hu. destruct (userToId_cases url) as [Hn|(g & id' & Hs & Hg & Hid)];
    [congruence|].
  apply user_pattern_match in Hs
    as (pre & mid & ds & id'' & post & Hurl & Hg' & Hrest).
  assert (id'' = id) as -> by congruence.
  by exists pre, mid, ds, post.
Qed.

Lemma occurs_at l pre post : occurs l (pre ++ l ++ post) = true.
Proof.
  induction pre as [|c pre IH].
  - change ("" ++ ?s) with s.
    destruct (l ++ post) eqn:E; simpl; rewrite <- E;
      by rewrite (proj2 (strip_prefix_Some l (l ++ post) post) eq_refl).
  - change (String c pre ++ ?s) with (String c (pre ++ s)).
    cbn [occurs]. rewrite IH. by destruct (strip_prefix _ _).
Qed.

(** X17: a locator in which [users/] does not occur has no user
    identifier: [userToId] returns [None]. *)
Theorem userToId_none url :
  occurs "users/" url = false → userToId url = VNone.
Proof.
  intros Hno. destruct (userToId_cases url) as [Hn|(g & id & Hs & _)]; [done|].
  apply user_pattern_match in Hs
    as (pre & mid & ds & id' & post & -> & _ & Hmid & _).
  assert (∃ rest, "users" ++ mid ++ "/" ++ ds ++ ":" ++ id' ++ post
                  = "users/" ++ rest) as [rest Hrest].
  { destruct Hmid as [-> | ->]; by eexists. }
  by rewrite Hrest, occurs_at in Hno.
Qed.

Lemma digit_starts ds rest :
  ds ≠ "" → all_chars digit ds = true →
  strip_prefix "/ME/contacts" ("/" ++ ds ++ rest) = None.
Proof.
  destruct ds as [|d ds]; [done|]. intros _ [Hd _]%andb_prop.
  change ("/" ++ String d ds ++ rest) with (String "/" (String d (ds ++ rest))).
  cbn [strip_prefix]. rewrite Ascii.eqb_refl.
  destruct (Ascii.eqb_spec "M" d) as [<-|]; [|done]. by vm_compute in Hd.
Qed.

(** X18: at the first occurrence of [users] in the locator, followed
    directly or after [/ME/contacts] by [/], digits, a colon and a run of
    identifier characters that ends the locator or is followed by another
    character, [userToId] returns that whole run, colons inside it
    included. *)
Theorem userToId_finds pre mid ds id post :
  absent_before "users" pre ("users" ++ mid ++ "/" ++ ds ++ ":" ++ id ++ post) = true →
  mid = "" ∨ mid = "/ME/contacts" →
  ds ≠ "" → all_chars digit ds = true →
  id ≠ "" → all_chars id_char id = true →
  starts id_char post = false →
  userToId (pre ++ "users" ++ mid ++ "/" ++ ds ++ ":" ++ id ++ post) = VStr id.
Proof.
  intros Habs Hmid Hds Hdigits Hid Hchars Hpost.
  unfold userToId, user_pattern. rewrite search_skip by done.
  assert (∃ g, head (alts (Opt (Group 1 (Lit "/ME/contacts")))
                  (mid ++ "/" ++ ds ++ ":" ++ id ++ post) ∅)
               = Some (mid, "/" ++ ds ++ ":" ++ id ++ post, g)) as [g1 H1].
  { destruct Hmid as [-> | ->].
    - exists ∅. change ("" ++ ?s) with s. cbn [alts].
      by rewrite digit_starts.
    - eexists. cbn [alts].
      by rewrite (proj2 (strip_prefix_Some _ _ _) eq_refl). }
  erewrite search_here; [|].
  2:{ eapply alts_seq_first; [apply lit_head|].
      eapply alts_seq_first; [apply H1|].
      eapply alts_seq_first; [apply lit_head|].
      eapply alts_seq_first; [by apply plus_head|].
      eapply alts_seq_first; [apply lit_head|].
      apply group_head. by apply plus_head. }
  unfold group. cbn [fst snd]. by rewrite lookup_insert_eq.
Qed.

Lemma chat_pattern_match url g :
  search chat_pattern url = Some g →
  ∃ pre ds name suffix post,
    url = pre ++ "conversations/" ++ (ds ++ ":" ++ name ++ suffix) ++ post ∧
    g !! 1 = Some (ds ++ ":" ++ name ++ suffix) ∧
    ds ≠ "" ∧ all_chars digit ds = true ∧
    name ≠ "" ∧ all_chars id_char name = true ∧
    (suffix = "" ∨ suffix = "@thread.skype").
Proof.
  intros Hs.
  apply search_Some in Hs as (pre & rest & m & -> & Hm & ->).
  unfold chat_pattern in Hm.
  apply alts_seq_inv in Hm as ([[w1 r1] g1] & m2 & H1 & Hm & ->); cbn [fst snd] in *.
  apply lit_elem in H1 as (-> & -> & ->).
  apply group_head_inv in Hm as (m3 & Hm & ->); cbn [fst snd] in *.
  apply alts_seq_inv in Hm as ([[w3 r3] g3] & m4 & H3 & Hm & ->); cbn [fst snd] in *.
  apply plus_elem in H3 as (-> & -> & Hds & Hdigits).
  apply alts_seq_inv in Hm as ([[w4 r4] g4] & m5 & H4 & Hm & ->); cbn [fst snd] in *.
  apply lit_elem in H4 as (-> & -> & ->).
  apply alts_seq_inv in Hm as ([[w5 r5] g5] & [[w6 r6] g6] & H5 & Hm & ->); cbn [fst snd] in *.
  apply plus_elem in H5 as (-> & -> & Hname & Hchars).
  apply head_Some_elem_of in Hm.
  exists pre, w3, w5, w6, r6. rewrite lookup_insert_eq.
  apply opt_group_lit_elem in Hm as [(-> & _ & ->)|(-> & _ & ->)].
  - split_and!; try done; [|by right].
    by rewrite ?append_assoc; simpl; rewrite ?append_assoc.
  - split_and!; try done; [|by left].
    by rewrite ?append_assoc; simpl; rewrite ?append_assoc.
Qed.

Lemma chatToId_cases url :
  (chatToId url = VNone)
  ∨ ∃ g cid, search chat_pattern url = Some g ∧ g !! 1 = Some cid
             ∧ chatToId url = VStr cid.
Proof.
  unfold chatToId, group. destruct (search chat_pattern url) as [g|]; [|by left].
  destruct (g !! 1) as [cid|] eqn:Hg; [|by left]. right. by exists g, cid.
Qed.

(** X19: an identifier returned by [chatToId] stands in the locator right
    after [conversations/], and is a non-empty run of digits, a colon, a
    non-empty run of identifier characters and then [@thread.skype] or
    nothing. *)
Theorem chatToId_shape url cid :
  chatToId url = VStr cid →
  ∃ pre ds name suffix post,
    url = pre ++ "conversations/" ++ cid ++ post ∧
    cid = ds ++ ":" ++ name ++ suffix ∧
    ds ≠ "" ∧ all_chars digit ds = true ∧
    name ≠ "" ∧ all_chars id_char name = true ∧
    (suffix = "" ∨ suffix = "@thread.skype").
Proof.
  intros Hc. destruct (chatToId_cases url) as [Hn|(g & cid' & Hs & Hg & Hid)];
    [congruence|].
  apply chat_pattern_match in Hs
    as (pre & ds & name & suffix & post & Hurl & Hg' & Hrest).
  assert (cid = ds ++ ":" ++ name ++ suffix) as -> by congruence.
  by exists pre, ds, name, suffix, post.
Qed.

(** X22: [noPrefix] never raises on what [chatToId] returns: it gives
    [None] for [None], and for an identifier what follows its numeric type
    prefix and the colon. *)
Theorem noPrefix_chatToId url :
  noPrefix (chatToId url) = Return VNone
  ∨ ∃ ds rest,
      all_chars digit ds = true ∧
      chatToId url = VStr (ds ++ ":" ++ rest) ∧
      noPrefix (chatToId url) = Return (VStr rest).
Proof.
  destruct (chatToId_cases url) as [->|(g & cid & Hs & Hg & Hid)]; [by left|].
  right. apply chat_pattern_match in Hs
    as (pre & ds & name & suffix & post & _ & Hg' & _ & Hdigits & _).
  assert (cid = ds ++ ":" ++ name ++ suffix) as -> by congruence.
  exists ds, (name ++ suffix). split_and!; [done..|].
  rewrite Hid. cbn [noPrefix].
  change (ds ++ ":" ++ name ++ suffix) with (ds ++ String ":" (name ++ suffix)).
  by rewrite py_split_first by by apply digit_not_colon.
Qed.

(** X21: at the first occurrence of [conversations/] in the locator,
    followed by digits, a colon and a run of identifier characters,
    [chatToId] returns the digits, the colon and the whole run, with
    [@thread.skype] appended when that follows the run. *)
Theorem chatToId_finds pre ds name post :
  absent_before "conversations/" pre
    ("conversations/" ++ ds ++ ":" ++ name ++ post) = true →
  ds ≠ "" → all_chars digit ds = true →
  name ≠ "" → all_chars id_char name = true →
  starts id_char post = false →
  chatToId (pre ++ "conversations/" ++ ds ++ ":" ++ name ++ post)
  = VStr (ds ++ ":" ++ name ++ thread_suffix post).
Proof.
  intros Habs Hds Hdigits Hname Hchars Hpost.
  unfold chatToId, chat_pattern. rewrite search_skip by done.
  assert (∃ rest g, head (alts (Opt (Group 2 (Lit "@thread.skype"))) post ∅)
                    = Some (thread_suffix post, rest, g)) as (rest & g2 & H2).
  { unfold thread_suffix. cbn [alts].
    destruct (strip_prefix "@thread.skype" post); by eexists _, _. }
  erewrite search_here; [|].
  2:{ eapply alts_seq_first; [apply lit_head|].
      apply group_head.
      eapply alts_seq_first; [by apply plus_head|].
      eapply alts_seq_first; [apply lit_head|].
      eapply alts_seq_first; [by apply plus_head|].
      apply H2. }
  unfold group. cbn [fst snd]. by rewrite lookup_insert_eq.
Qed.

(** X20: a locator in which [conversations/] does not occur has no
    conversation identifier: [chatToId] returns [None]. *)
Theorem chatToId_none url :
  occurs "conversations/" url = false → chatToId url = VNone.
Proof.
  intros Hno. destruct (chatToId_cases url) as [Hn|(g & cid & Hs & _)]; [done|].
  apply chat_pattern_match in Hs as (pre & ds & name & suffix & post & -> & _).
  by rewrite occurs_at in Hno.
Qed.

Lemma userToId_shape_witness :
  ∃ pre mid ds post,
    "https://api/users/ME/contacts/8:bob?view=full"
    = pre ++ "users" ++ mid ++ "/" ++ ds ++ ":" ++ "bob" ++ post ∧
    (mid = "" ∨ mid = "/ME/contacts") ∧
    ds ≠ "" ∧ all_chars digit ds = true ∧
    "bob" ≠ "" ∧ all_chars id_char "bob" = true ∧
    starts id_char post = false.
Proof.
  apply (userToId_shape "https://api/users/ME/contacts/8:bob?view=full" "bob").
  vm_compute. reflexivity.
Defined.


Lemma userToId_none_witness :
  userToId "https://api/v1/user/8:alice" = VNone.
Proof. apply userToId_none. vm_compute. reflexivity. Defined.

Lemma chatToId_none_witness :
  chatToId "https://api/v1/users/ME/contacts/8:alice" = VNone.
Proof. apply chatToId_none. vm_compute. reflexivity. Defined.

Lemma userToId_finds_witness :
  userToId "https://api/v1/users/ME/contacts/8:live:bob/presence"
  = VStr "live:bob".
Proof.
  apply (userToId_finds "https://api/v1/" "/ME/contacts" "8" "live:bob"
           "/presence");
    [vm_compute; reflexivity | by right | done | reflexivity | done
    | reflexivity | reflexivity].
Defined.

Lemma chatToId_shape_witness :
  ∃ pre ds name suffix post,
    "https://api/v1/users/ME/conversations/19:abc@thread.skype/messages"
    = pre ++ "conversations/" ++ "19:abc@thread.skype" ++ post ∧
    "19:abc@thread.skype" = ds ++ ":" ++ name ++ suffix ∧
    ds ≠ "" ∧ all_chars digit ds = true ∧
    name ≠ "" ∧ all_chars id_char name = true ∧
    (suffix = "" ∨ suffix = "@thread.skype").
Proof.
  apply (chatToId_shape
           "https://api/v1/users/ME/conversations/19:abc@thread.skype/messages"
           "19:abc@thread.skype").
  vm_compute. reflexivity.
Defined.

Lemma chatToId_finds_witness :
  chatToId "https://api/v1/users/ME/conversations/19:abc@thread.skype/messages"
  = VStr "19:abc@thread.skype".
Proof.
  apply (chatToId_finds "https://api/v1/users/ME/" "19" "abc"
           "@thread.skype/messages");
    [vm_compute; reflexivity | done | reflexivity | done
    | reflexivity | reflexivity].
Defined.

End Locators.
